(** * Spacy_Claude: span rewriting, replacement registry and template synthesis

    A shallow embedding of [TextPseudonymizer] (pseudonymizer_simple.py) and of
    [DataGenerator] (spacy_finetuning_fixed.py, spacy_finetuning_module.py; the
    two copies of [generate_training_data] are identical), followed by the
    properties of the specification that concern them.

    Python [str] values are lists of characters; a character is a code point
    in the range U+0000..U+00FF.  Python [int] values are [Z]. *)

From Stdlib Require Import ZArith Ascii String List Bool Lia Sorted Permutation.
From stdpp Require Import base tactics option list gmap strings pretty.

Local Open Scope Z_scope.
#[local] Set Warnings "-clear-no-such-hyp".

(** ** Python strings *)

Abbreviation str := (list ascii).

Definition lit (s : string) : str := list_ascii_of_string s.

(** [len(s)] *)
Definition len (s : str) : Z := Z.of_nat (length s).

(** [str.lower()] on one code point below U+0100: A-Z and the Latin-1 capitals
    (U+00C0..U+00DE except the multiplication sign U+00D7) move by 32. *)
Definition lower_char (c : ascii) : ascii :=
  let n := nat_of_ascii c in
  if ((65 <=? n)%nat && (n <=? 90)%nat)
     || ((192 <=? n)%nat && (n <=? 222)%nat && negb (n =? 215)%nat)
  then ascii_of_nat (n + 32) else c.

Definition lower (s : str) : str := map lower_char s.

(** Normalisation of a slice bound: a negative bound counts from the end, and
    the result is clamped to [0, len(s)]. *)
Definition slice_index (n : nat) (i : Z) : nat :=
  let j := if i <? 0 then i + Z.of_nat n else i in
  if j <? 0 then 0%nat else if Z.of_nat n <? j then n else Z.to_nat j.

(** [s[:i]] and [s[i:]] *)
Definition slice_to (s : str) (i : Z) : str := take (slice_index (length s) i) s.
Definition slice_from (s : str) (i : Z) : str := drop (slice_index (length s) i) s.

(** [s[i:j]] *)
Definition slice (s : str) (i j : Z) : str :=
  let a := slice_index (length s) i in
  let b := slice_index (length s) j in
  take (b - a) (drop a s).

(** [s * n] *)
Definition str_repeat (s : str) (n : Z) : str := mjoin (replicate (Z.to_nat n) s).

(** [f"{n}"] for an integer *)
Definition fmt_int (n : Z) : str := lit (pretty n).

(** [tok] is a prefix of [s] *)
Fixpoint starts_with (tok s : str) : bool :=
  match tok, s with
  | [], _ => true
  | _ :: _, [] => false
  | a :: tok', b :: s' => if decide (a = b) then starts_with tok' s' else false
  end.

(** [tok in s] *)
Fixpoint str_in (tok s : str) : bool :=
  if starts_with tok s then true
  else match s with
       | [] => false
       | _ :: s' => str_in tok s'
       end.

(** [s.find(tok)], searching from index [i] of the whole string *)
Fixpoint find_from (tok s : str) (i : Z) : Z :=
  if starts_with tok s then i
  else match s with
       | [] => -1
       | _ :: s' => find_from tok s' (i + 1)
       end.

Definition str_find (tok s : str) : Z := find_from tok s 0.

(** [s.replace(tok, v, 1)] *)
Fixpoint replace_first (tok v s : str) : str :=
  if starts_with tok s then v ++ drop (length tok) s
  else match s with
       | [] => []
       | c :: s' => c :: replace_first tok v s'
       end.

(** ** Regular expressions (the fragment of [re] used by the two patterns) *)

Inductive regex : Type :=
| Eps
| Class (p : ascii → bool)
| WordBoundary
| Cat (r1 r2 : regex)
| Alt (r1 r2 : regex)
| Star (r : regex).

Definition Plus (r : regex) : regex := Cat r (Star r).
Definition Opt (r : regex) : regex := Alt r Eps.

Fixpoint Times (n : nat) (r : regex) : regex :=
  match n with
  | O => Eps
  | S n' => Cat r (Times n' r)
  end.

Definition AtLeast (n : nat) (r : regex) : regex := Cat (Times n r) (Star r).

Definition Chr (c : ascii) : regex := Class (λ x, bool_decide (x = c)).

Fixpoint Lit (s : str) : regex :=
  match s with
  | [] => Eps
  | c :: s' => Cat (Chr c) (Lit s')
  end.

Definition in_range (lo hi c : ascii) : bool :=
  ((nat_of_ascii lo <=? nat_of_ascii c)%nat && (nat_of_ascii c <=? nat_of_ascii hi)%nat).

Definition one_of (s : str) (c : ascii) : bool := bool_decide (c ∈ s).

(** [\d], [\s] and [\w] of a [str] pattern, on code points below U+0100 *)
Definition is_digit (c : ascii) : bool := in_range "0" "9" c.

Definition is_space (c : ascii) : bool :=
  let n := nat_of_ascii c in
  ((9 <=? n)%nat && (n <=? 13)%nat) || ((28 <=? n)%nat && (n <=? 32)%nat)
  || (n =? 133)%nat || (n =? 160)%nat.

Definition is_word (c : ascii) : bool :=
  let n := nat_of_ascii c in
  in_range "a" "z" c || in_range "A" "Z" c || in_range "0" "9" c
  || bool_decide (c = "_"%char)
  || bool_decide (n ∈ [170; 178; 179; 181; 185; 186; 188; 189; 190]%nat)
  || ((192 <=? n)%nat && negb (n =? 215)%nat && negb (n =? 247)%nat).

Definition is_word_opt (c : option ascii) : bool :=
  match c with
  | Some x => is_word x
  | None => false
  end.

(** Backtracking matcher in continuation-passing style.  [prev] is the
    character before the current position, [s] the text from the current
    position on; the continuation receives the position after the match.
    Alternatives are tried left to right and [Star] is greedy, as in [re]. *)
Fixpoint rx_match (r : regex) (prev : option ascii) (s : str)
    (k : option ascii → str → option str) {struct r} : option str :=
  match r with
  | Eps => k prev s
  | Class p =>
      match s with
      | c :: s' => if p c then k (Some c) s' else None
      | [] => None
      end
  | WordBoundary =>
      if xorb (is_word_opt prev) (is_word_opt (head s)) then k prev s else None
  | Cat r1 r2 => rx_match r1 prev s (λ prev' s', rx_match r2 prev' s' k)
  | Alt r1 r2 =>
      match rx_match r1 prev s k with
      | Some res => Some res
      | None => rx_match r2 prev s k
      end
  | Star r1 =>
      (fix star (fuel : nat) (prev : option ascii) (s : str) {struct fuel} : option str :=
         match fuel with
         | O => k prev s
         | S fuel' =>
             match rx_match r1 prev s
                     (λ prev' s', if (length s' <? length s)%nat
                                  then star fuel' prev' s' else None) with
             | Some res => Some res
             | None => k prev s
             end
         end) (length s) prev s
  end.

(** One attempt of the pattern at the current position: the text left after
    the match. *)
Definition rx_match_here (r : regex) (prev : option ascii) (s : str) : option str :=
  rx_match r prev s (λ _ s', Some s').

(** Leftmost match at or after the current position: the text skipped before
    it, the matched text and the text after it. *)
Fixpoint rx_search (r : regex) (prev : option ascii) (s : str) : option (str * str * str) :=
  match rx_match_here r prev s with
  | Some rest => Some ([], take (length s - length rest) s, rest)
  | None =>
      match s with
      | [] => None
      | c :: s' =>
          match rx_search r (Some c) s' with
          | Some (skipped, m, rest) => Some (c :: skipped, m, rest)
          | None => None
          end
      end
  end.

(** The non-overlapping matches of [Pattern.sub], left to right: each with
    the unmatched text before it, and the unmatched tail.  After an empty
    match one character is copied before the scan goes on. *)
Fixpoint rx_split (fuel : nat) (r : regex) (prev : option ascii) (s : str)
    : list (str * str) * str :=
  match fuel with
  | O => ([], s)
  | S fuel' =>
      match rx_search r prev s with
      | None => ([], s)
      | Some (skipped, m, rest) =>
          match m, rest with
          | [], [] => ([(skipped, m)], [])
          | [], c :: rest' =>
              let '(ps, tl) := rx_split fuel' r (Some c) rest' in
              ((skipped, m) :: match ps with
                               | [] => []
                               | (g, m') :: ps' => (c :: g, m') :: ps'
                               end,
               match ps with [] => c :: tl | _ => tl end)
          | _ :: _, _ =>
              let '(ps, tl) := rx_split fuel' r (last m) rest in
              ((skipped, m) :: ps, tl)
          end
      end
  end.

(** [pattern.sub(repl, text)] with a function [repl] that reads and updates a
    state: the callback is called once per match, left to right. *)
Fixpoint sub_pieces {St : Type} (repl : str → St → str * St)
    (pieces : list (str * str)) (st : St) : str * St :=
  match pieces with
  | [] => ([], st)
  | (gap, m) :: ps =>
      let '(r, st1) := repl m st in
      let '(out, st2) := sub_pieces repl ps st1 in
      (gap ++ r ++ out, st2)
  end.

Definition re_sub {St : Type} (r : regex) (repl : str → St → str * St)
    (text : str) (st : St) : str * St :=
  let '(pieces, tl) := rx_split (S (length text)) r None text in
  let '(out, st') := sub_pieces repl pieces st in
  (out ++ tl, st').

(** ** pseudonymizer_simple.py *)

Record PseudonymizationConfig : Type := {
  mask_persons : bool;
  mask_orgs : bool;
  mask_locations : bool;
  mask_dates : bool;
  mask_emails : bool;
  mask_phones : bool;
  replacement_char : str;
  preserve_length : bool;
  use_placeholders : bool
}.

(** The defaults of the dataclass *)
Definition default_config : PseudonymizationConfig := {|
  mask_persons := true; mask_orgs := true; mask_locations := true;
  mask_dates := true; mask_emails := true; mask_phones := true;
  replacement_char := lit "X"; preserve_length := true;
  use_placeholders := false
|}.

(** An entity of [doc.ents], as the external recogniser reports it *)
Record Ent : Type := {
  label_ : str;
  text_ : str;
  start_char : Z;
  end_char : Z
}.

Record TextPseudonymizer : Type := {
  nlp : str → list Ent;
  email_pattern : regex;
  phone_pattern : regex;
  entity_mapping : gmap str str;
  person_counter : Z;
  org_counter : Z;
  location_counter : Z;
  date_counter : Z;
  email_counter : Z;
  phone_counter : Z;
  correspondences : gmap str str
}.

(** [\b[A-Za-z0-9._%+-]+@[A-Za-z0-9.-]+\.[A-Z|a-z]{2,}\b] *)
Definition email_regex : regex :=
  let alnum c := in_range "A" "Z" c || in_range "a" "z" c || in_range "0" "9" c in
  Cat WordBoundary
   (Cat (Plus (Class (λ c, alnum c || one_of (lit "._%+-") c)))
    (Cat (Chr "@")
     (Cat (Plus (Class (λ c, alnum c || one_of (lit ".-") c)))
      (Cat (Chr ".")
       (Cat (AtLeast 2 (Class (λ c, in_range "A" "Z" c || bool_decide (c = "|"%char)
                                    || in_range "a" "z" c)))
            WordBoundary))))).

(** [(?:\+33|0)[1-9](?:[.\-\s]?\d{2}){4}] *)
Definition phone_regex : regex :=
  Cat (Alt (Lit (lit "+33")) (Lit (lit "0")))
   (Cat (Class (in_range "1" "9"))
        (Times 4 (Cat (Opt (Class (λ c, one_of (lit ".-") c || is_space c)))
                      (Cat (Class is_digit) (Class is_digit))))).

(** [__init__], given the entity recogniser of the loaded model *)
Definition TextPseudonymizer_init (model : str → list Ent) : TextPseudonymizer := {|
  nlp := model;
  email_pattern := email_regex;
  phone_pattern := phone_regex;
  entity_mapping :=
    list_to_map [(lit "PERSON", lit "PERSONNE"); (lit "PER", lit "PERSONNE");
                 (lit "ORG", lit "ORGANISATION"); (lit "GPE", lit "LIEU");
                 (lit "LOC", lit "LIEU"); (lit "DATE", lit "DATE");
                 (lit "TIME", lit "DATE")];
  person_counter := 1;
  org_counter := 1;
  location_counter := 1;
  date_counter := 1;
  email_counter := 1;
  phone_counter := 1;
  correspondences := ∅
|}.

(** The counters and the registry, the part of [self] that is assigned to *)
Definition set_counters (self : TextPseudonymizer) (p o l d e t : Z) : TextPseudonymizer := {|
  nlp := nlp self;
  email_pattern := email_pattern self;
  phone_pattern := phone_pattern self;
  entity_mapping := entity_mapping self;
  person_counter := p;
  org_counter := o;
  location_counter := l;
  date_counter := d;
  email_counter := e;
  phone_counter := t;
  correspondences := correspondences self
|}.

Definition set_correspondences (self : TextPseudonymizer) (m : gmap str str) : TextPseudonymizer := {|
  nlp := nlp self;
  email_pattern := email_pattern self;
  phone_pattern := phone_pattern self;
  entity_mapping := entity_mapping self;
  person_counter := person_counter self;
  org_counter := org_counter self;
  location_counter := location_counter self;
  date_counter := date_counter self;
  email_counter := email_counter self;
  phone_counter := phone_counter self;
  correspondences := m
|}.

Definition bump_person (s : TextPseudonymizer) : TextPseudonymizer :=
  set_counters s (person_counter s + 1) (org_counter s) (location_counter s)
               (date_counter s) (email_counter s) (phone_counter s).
Definition bump_org (s : TextPseudonymizer) : TextPseudonymizer :=
  set_counters s (person_counter s) (org_counter s + 1) (location_counter s)
               (date_counter s) (email_counter s) (phone_counter s).
Definition bump_location (s : TextPseudonymizer) : TextPseudonymizer :=
  set_counters s (person_counter s) (org_counter s) (location_counter s + 1)
               (date_counter s) (email_counter s) (phone_counter s).
Definition bump_date (s : TextPseudonymizer) : TextPseudonymizer :=
  set_counters s (person_counter s) (org_counter s) (location_counter s)
               (date_counter s + 1) (email_counter s) (phone_counter s).
Definition bump_email (s : TextPseudonymizer) : TextPseudonymizer :=
  set_counters s (person_counter s) (org_counter s) (location_counter s)
               (date_counter s) (email_counter s + 1) (phone_counter s).
Definition bump_phone (s : TextPseudonymizer) : TextPseudonymizer :=
  set_counters s (person_counter s) (org_counter s) (location_counter s)
               (date_counter s) (email_counter s) (phone_counter s + 1).

(** The key of the registry: [f"{entity_type}_{original_text.lower()}"] *)
Definition registry_key (entity_type original_text : str) : str :=
  entity_type ++ lit "_" ++ lower original_text.

(** The pseudonym generated for a key that is not yet in the registry *)
Definition fresh_replacement (self : TextPseudonymizer) (original_text entity_type : str)
    (config : PseudonymizationConfig) : str * TextPseudonymizer :=
  if use_placeholders config then (lit "[" ++ entity_type ++ lit "]", self)
  else if decide (entity_type = lit "PERSONNE") then
    (lit "PERSONNE_" ++ fmt_int (person_counter self), bump_person self)
  else if decide (entity_type = lit "ORGANISATION") then
    (lit "ORGANISATION_" ++ fmt_int (org_counter self), bump_org self)
  else if decide (entity_type = lit "LIEU") then
    (lit "LIEU_" ++ fmt_int (location_counter self), bump_location self)
  else if decide (entity_type = lit "DATE") then
    (lit "DATE_" ++ fmt_int (date_counter self), bump_date self)
  else if decide (entity_type = lit "EMAIL") then
    (lit "email" ++ fmt_int (email_counter self) ++ lit "@exemple.com", bump_email self)
  else if decide (entity_type = lit "TELEPHONE") then
    (lit "0" ++ fmt_int (phone_counter self) ++ lit ".XX.XX.XX.XX", bump_phone self)
  else if preserve_length config then
    (str_repeat (replacement_char config) (len original_text), self)
  else (str_repeat (replacement_char config) 3, self).

Definition _generate_consistent_replacement (self : TextPseudonymizer)
    (original_text entity_type : str) (config : PseudonymizationConfig)
    : str * TextPseudonymizer :=
  let key := registry_key entity_type original_text in
  match correspondences self !! key with
  | Some stored => (stored, self)
  | None =>
      let '(replacement, self1) := fresh_replacement self original_text entity_type config in
      (replacement, set_correspondences self1 (<[key := replacement]> (correspondences self1)))
  end.

Definition _pseudonymize_regex_patterns (self : TextPseudonymizer) (text : str)
    (config : PseudonymizationConfig) : str * TextPseudonymizer :=
  let replace_email m s := _generate_consistent_replacement s m (lit "EMAIL") config in
  let replace_phone m s := _generate_consistent_replacement s m (lit "TELEPHONE") config in
  let '(text1, self1) :=
    if mask_emails config then re_sub (email_pattern self) replace_email text self
    else (text, self) in
  if mask_phones config then re_sub (phone_pattern self1) replace_phone text1 self1
  else (text1, self1).

(** An entry of [entities_found] *)
Record EntityRecord : Type := {
  original : str;
  replacement : str;
  type_ : str;
  position : str
}.

(** The variables of the loop over [doc.ents] *)
Record RewriteState : Type := {
  rw_self : TextPseudonymizer;
  rw_text : str;
  rw_offset : Z;
  rw_entities : list EntityRecord
}.

Definition should_mask (entity_type : str) (config : PseudonymizationConfig) : bool :=
  if bool_decide (entity_type = lit "PERSONNE") && mask_persons config then true
  else if bool_decide (entity_type = lit "ORGANISATION") && mask_orgs config then true
  else if bool_decide (entity_type = lit "LIEU") && mask_locations config then true
  else if bool_decide (entity_type = lit "DATE") && mask_dates config then true
  else false.

Definition mapped_type (self : TextPseudonymizer) (ent : Ent) : str :=
  default (label_ ent) (entity_mapping self !! label_ ent).

(** The body of [for ent in doc.ents] *)
Definition rewrite_step (config : PseudonymizationConfig) (st : RewriteState) (ent : Ent)
    : RewriteState :=
  let entity_type := mapped_type (rw_self st) ent in
  if should_mask entity_type config then
    let start_pos := start_char ent + rw_offset st in
    let end_pos := end_char ent + rw_offset st in
    let '(repl, self1) :=
      _generate_consistent_replacement (rw_self st) (text_ ent) entity_type config in
    {| rw_self := self1;
       rw_text := slice_to (rw_text st) start_pos ++ repl ++ slice_from (rw_text st) end_pos;
       rw_offset := rw_offset st + (len repl - len (text_ ent));
       rw_entities := rw_entities st ++
         [{| original := text_ ent; replacement := repl; type_ := entity_type;
             position := fmt_int (start_char ent) ++ lit "-" ++ fmt_int (end_char ent) |}] |}
  else st.

(** The whole loop, over the entities in the order [doc.ents] yields them *)
Definition rewrite_ents (config : PseudonymizationConfig) (self : TextPseudonymizer)
    (text : str) (ents : list Ent) : RewriteState :=
  fold_left (rewrite_step config) ents
    {| rw_self := self; rw_text := text; rw_offset := 0; rw_entities := [] |}.

(** The dictionary that [pseudonymize] returns *)
Record PseudonymizeResult : Type := {
  original_text : str;
  pseudonymized_text : str;
  entities : list EntityRecord;
  result_correspondences : gmap str str
}.

(** The body of [pseudonymize] once [doc = self.nlp(text)] has run, for the
    entities [doc_ents] *)
Definition pseudonymize_with (doc_ents : list Ent) (self : TextPseudonymizer) (text : str)
    (config : PseudonymizationConfig) : PseudonymizeResult * TextPseudonymizer :=
  let st := rewrite_ents config self text doc_ents in
  let '(final_text, self') := _pseudonymize_regex_patterns (rw_self st) (rw_text st) config in
  ({| original_text := text;
      pseudonymized_text := final_text;
      entities := rw_entities st;
      result_correspondences := correspondences self' |}, self').

Definition pseudonymize (self : TextPseudonymizer) (text : str)
    (config : option PseudonymizationConfig) : PseudonymizeResult * TextPseudonymizer :=
  let config := default default_config config in
  pseudonymize_with (nlp self text) self text config.

(** ** spacy_finetuning_fixed.py / spacy_finetuning_module.py: DataGenerator *)

(** How a call ends: with a value, with an exception, or not within the
    given number of loop iterations. *)
Inductive outcome (A : Type) : Type :=
| Return (a : A)
| Raise (msg : str)
| OutOfFuel.
Arguments Return {A} a.
Arguments Raise {A} msg.
Arguments OutOfFuel {A}.

#[global] Instance outcome_bind : MBind outcome := λ A B f m,
  match m with
  | Return a => f a
  | Raise msg => Raise msg
  | OutOfFuel => OutOfFuel
  end.

(** The random source: the sequence of draws still to come.  [random.choice]
    consumes one draw and indexes the sequence with it; on an empty sequence
    it raises. *)
Abbreviation rng := (nat → nat).

Definition choice {A : Type} (seq : list A) (g : rng) : option A * rng :=
  (seq !! (g O mod length seq)%nat, λ n, g (S n)).

(** An annotation [(start, end, label)] *)
Abbreviation span := (Z * Z * str)%type.

Definition span_start (e : span) : Z := e.1.1.

(** A training example [(text, {"entities": spans})] *)
Abbreviation example := (str * list span)%type.

Record DataGenerator : Type := {
  person_names : list str;
  org_names : list str;
  location_names : list str;
  context_templates : list str;
  generated_data : list example
}.

Definition set_generated_data (self : DataGenerator) (d : list example) : DataGenerator := {|
  person_names := person_names self;
  org_names := org_names self;
  location_names := location_names self;
  context_templates := context_templates self;
  generated_data := d
|}.

(** [list.sort(key=lambda x: x[0])]: the stable sort by start *)
Fixpoint insert_by_start (x : span) (l : list span) : list span :=
  match l with
  | [] => [x]
  | y :: l' => if span_start x <=? span_start y then x :: y :: l'
               else y :: insert_by_start x l'
  end.

Fixpoint sort_by_start (l : list span) : list span :=
  match l with
  | [] => []
  | x :: l' => insert_by_start x (sort_by_start l')
  end.

(** One of the three [while] loops: [token] is the placeholder, [label] the
    label of the recorded spans and [names] the pool of that kind. *)
Fixpoint substitute_kind (fuel : nat) (token label : str) (names : list str) (g : rng)
    (current_text : str) (current_entities : list span)
    : outcome (str * list span * rng) :=
  if str_in token current_text && bool_decide (names ≠ []) then
    match fuel with
    | O => OutOfFuel
    | S fuel' =>
        match choice names g with
        | (None, _) => Raise (lit "IndexError")
        | (Some value, g') =>
            let pos := str_find token current_text in
            if bool_decide (pos ≠ -1) then
              substitute_kind fuel' token label names g'
                (replace_first token value current_text)
                (current_entities ++ [(pos, pos + len value, label)])
            else
              substitute_kind fuel' token label names g' current_text current_entities
        end
    end
  else Return (current_text, current_entities, g).

Definition placeholders : list str := [lit "{PERSON}"; lit "{ORG}"; lit "{LOC}"].

(** The three passes over one template, in the order of the source *)
Definition fill_template (fuel : nat) (self : DataGenerator) (template : str) (g : rng)
    : outcome (str * list span * rng) :=
  '(t1, e1, g1) ← substitute_kind fuel (lit "{PERSON}") (lit "PERSON")
                     (person_names self) g template [];
  '(t2, e2, g2) ← substitute_kind fuel (lit "{ORG}") (lit "ORG")
                     (org_names self) g1 t1 e1;
  substitute_kind fuel (lit "{LOC}") (lit "LOC") (location_names self) g2 t2 e2.

(** The validation at the end of the loop body: the example that is appended
    to [training_data], if any *)
Definition validate (current_text : str) (current_entities : list span) : option example :=
  if negb (existsb (λ placeholder, str_in placeholder current_text) placeholders) then
    if bool_decide (current_entities ≠ []) then
      Some (current_text, sort_by_start current_entities)
    else None
  else None.

(** The body of [for _ in range(num_samples)] *)
Definition sample (fuel : nat) (self : DataGenerator) (g : rng) (training_data : list example)
    : outcome (list example * rng) :=
  match choice (context_templates self) g with
  | (None, _) => Raise (lit "IndexError")
  | (Some template, g0) =>
      '(current_text, current_entities, g') ← fill_template fuel self template g0;
      match validate current_text current_entities with
      | Some ex => Return (training_data ++ [ex], g')
      | None => Return (training_data, g')
      end
  end.

Fixpoint samples (fuel : nat) (self : DataGenerator) (n : nat) (g : rng)
    (training_data : list example) : outcome (list example * rng) :=
  match n with
  | O => Return (training_data, g)
  | S n' =>
      '(training_data', g') ← sample fuel self g training_data;
      samples fuel self n' g' training_data'
  end.

Definition generate_training_data (fuel : nat) (self : DataGenerator) (num_samples : Z)
    (g : rng) : outcome (list example * DataGenerator * rng) :=
  if bool_decide (context_templates self = []) then
    Raise (lit "Aucun template de contexte charg" ++ [ascii_of_nat 233])
  else
    '(training_data, g') ← samples fuel self (Z.to_nat num_samples) g [];
    Return (training_data, set_generated_data self training_data, g').

(** ** Registry lifetimes *)

(** One call of the resolver *)
Record Call : Type := {
  call_text : str;
  call_type : str;
  call_config : PseudonymizationConfig
}.

(** Successive calls on one object: the pseudonyms returned, in call order,
    and the object after the last call. *)
Fixpoint resolve_all (self : TextPseudonymizer) (calls : list Call)
    : list str * TextPseudonymizer :=
  match calls with
  | [] => ([], self)
  | c :: calls' =>
      let '(r, self1) :=
        _generate_consistent_replacement self (call_text c) (call_type c) (call_config c) in
      let '(rs, self2) := resolve_all self1 calls' in
      (r :: rs, self2)
  end.

Definition call_key (c : Call) : str := registry_key (call_type c) (call_text c).

(** The six entity types that have a counter *)
Inductive kind : Type := Person | Organisation | Lieu | Date | Email | Telephone.

#[global] Instance kind_eq_dec : EqDecision kind.
Proof. solve_decision. Defined.

Definition kind_name (k : kind) : str :=
  match k with
  | Person => lit "PERSONNE"
  | Organisation => lit "ORGANISATION"
  | Lieu => lit "LIEU"
  | Date => lit "DATE"
  | Email => lit "EMAIL"
  | Telephone => lit "TELEPHONE"
  end.

Definition kind_counter (k : kind) (self : TextPseudonymizer) : Z :=
  match k with
  | Person => person_counter self
  | Organisation => org_counter self
  | Lieu => location_counter self
  | Date => date_counter self
  | Email => email_counter self
  | Telephone => phone_counter self
  end.

(** The pseudonym of a kind for the counter value [n] *)
Definition kind_pseudonym (k : kind) (n : Z) : str :=
  match k with
  | Person => lit "PERSONNE_" ++ fmt_int n
  | Organisation => lit "ORGANISATION_" ++ fmt_int n
  | Lieu => lit "LIEU_" ++ fmt_int n
  | Date => lit "DATE_" ++ fmt_int n
  | Email => lit "email" ++ fmt_int n ++ lit "@exemple.com"
  | Telephone => lit "0" ++ fmt_int n ++ lit ".XX.XX.XX.XX"
  end.

(** The counter of a kind, incremented *)
Definition bump (k : kind) (self : TextPseudonymizer) : TextPseudonymizer :=
  match k with
  | Person => bump_person self
  | Organisation => bump_org self
  | Lieu => bump_location self
  | Date => bump_date self
  | Email => bump_email self
  | Telephone => bump_phone self
  end.

(** What holds of a registry that was only ever filled in consistent mode for
    the six kinds: an entry of a kind holds the pseudonym of a counter value
    that is already used up, and no two entries of a kind hold the same
    pseudonym. *)
Definition registry_inv (self : TextPseudonymizer) : Prop :=
  (∀ k l v, correspondences self !! (kind_name k ++ lit "_" ++ l) = Some v →
            ∃ n, v = kind_pseudonym k n ∧ n < kind_counter k self)
  ∧ (∀ k l1 l2 v, correspondences self !! (kind_name k ++ lit "_" ++ l1) = Some v →
                  correspondences self !! (kind_name k ++ lit "_" ++ l2) = Some v →
                  l1 = l2).

(** A call in consistent mode for one of the six kinds *)
Definition consistent_call (c : Call) : Prop :=
  use_placeholders (call_config c) = false ∧ ∃ k, call_type c = kind_name k.

(** ** Spans of the rewriter *)

(** The entities that the loop of [pseudonymize] replaces *)
Definition masked (self : TextPseudonymizer) (config : PseudonymizationConfig)
    (ents : list Ent) : list Ent :=
  filter (λ e, should_mask (mapped_type self e) config = true) ents.

(** Spans in ascending order that lie between [lo] and [hi] without
    overlapping, each with a text as long as its range *)
Fixpoint ordered_spans (lo hi : Z) (ents : list Ent) : Prop :=
  match ents with
  | [] => True
  | e :: ents' =>
      lo ≤ start_char e ∧ start_char e ≤ end_char e ∧ end_char e ≤ hi
      ∧ len (text_ e) = end_char e - start_char e
      ∧ ordered_spans (end_char e) hi ents'
  end.

(** The change of length that one logged replacement causes *)
Definition delta (r : EntityRecord) : Z := len (replacement r) - len (original r).

Definition sum_deltas (log : list EntityRecord) : Z := foldr (λ r acc, delta r + acc) 0 log.

(** The loop invariant of the rewriter, for the source text [text], the
    masked entities [done] processed so far and the end [lo] of the last one *)
Record rewrite_inv (self : TextPseudonymizer) (text : str) (done : list Ent) (lo : Z)
    (st : RewriteState) : Prop := {
  inv_mapping : entity_mapping (rw_self st) = entity_mapping self;
  inv_offset : rw_offset st = sum_deltas (rw_entities st);
  inv_len : len (rw_text st) = len text + rw_offset st;
  inv_lo : 0 ≤ lo ≤ len text;
  inv_lo_adj : 0 ≤ lo + rw_offset st;
  inv_rest : drop (Z.to_nat (lo + rw_offset st)) (rw_text st) = drop (Z.to_nat lo) text;
  inv_log_length : length (rw_entities st) = length done;
  inv_log : ∀ i e r, done !! i = Some e → rw_entities st !! i = Some r →
      original r = text_ e
      ∧ 0 ≤ start_char e + sum_deltas (take i (rw_entities st))
      ∧ start_char e + sum_deltas (take i (rw_entities st)) + len (replacement r)
          ≤ lo + rw_offset st
      ∧ take (length (replacement r))
             (drop (Z.to_nat (start_char e + sum_deltas (take i (rw_entities st))))
                   (rw_text st))
        = replacement r
}.

(** ** Matches of a pattern as calls of the resolver *)

Definition match_calls (ty : str) (config : PseudonymizationConfig)
    (pieces : list (str * str)) : list Call :=
  (λ p, {| call_text := p.2; call_type := ty; call_config := config |}) <$> pieces.

(** The text before each match followed by the replacement of the match *)
Fixpoint weave (pieces : list (str * str)) (rs : list str) : str :=
  match pieces, rs with
  | (gap, _) :: ps, r :: rs' => gap ++ r ++ weave ps rs'
  | _, _ => []
  end.

(** The matches of a pattern in a text, when the kind is masked *)
Definition matches_if (enabled : bool) (r : regex) (text : str) : list (str * str) * str :=
  if enabled then rx_split (S (length text)) r None text else ([], text).

(** An entity written with string literals *)
Definition ent (label text : string) (s e : Z) : Ent :=
  {| label_ := lit label; text_ := lit text; start_char := s; end_char := e |}.

(** ** Occurrences of a token *)

(** [tok] occurs in [s] at index [i] *)
Definition occurs_at (tok s : str) (i : nat) : Prop :=
  ∃ a b, s = a ++ tok ++ b ∧ length a = i.

(** [s] is [pre ++ tok ++ post] and [tok] occurs nowhere before that *)
Definition first_occurrence (tok pre post : str) : Prop :=
  ∀ i, (i < length pre)%nat → ¬ occurs_at tok (pre ++ tok ++ post) i.

(** Modelled on the words of the specification (section 4.4): one pass for a
    kind.  While the token occurs and the pool is not empty, the first
    occurrence is replaced by some value of the pool, and the span of the
    value in the string of that moment is added after the spans recorded so
    far. *)
Inductive kind_pass (token label : str) (names : list str)
    : str → list span → str → list span → Prop :=
| pass_done t es :
    str_in token t = false ∨ names = [] →
    kind_pass token label names t es t es
| pass_step pre post value es t' es' :
    first_occurrence token pre post →
    value ∈ names →
    kind_pass token label names (pre ++ value ++ post)
      (es ++ [(len pre, len pre + len value, label)]) t' es' →
    kind_pass token label names (pre ++ token ++ post) es t' es'.

(** ** Generator runs *)

(** The examples that a call returns, if it returns *)
Definition training_data_of {A B : Type} (o : outcome (list example * A * B))
    : option (list example) :=
  match o with
  | Return (d, _, _) => Some d
  | _ => None
  end.

(** The generator with the one template and the pools of the coverage
    example of the specification (section 8) *)
Definition coverage_generator : DataGenerator := {|
  person_names := [lit "Jean Dupont"];
  org_names := [lit "Microsoft"];
  location_names := [];
  context_templates := [lit "{PERSON} travaille chez {ORG} depuis janvier."];
  generated_data := []
|}.

(** One draw of the generator: the template chosen, and the text and spans
    after the three passes *)
Record Draw : Type := {
  draw_template : str;
  draw_text : str;
  draw_entities : list span
}.

(** The draw is one that the generator can make *)
Definition draw_ok (fuel : nat) (self : DataGenerator) (d : Draw) : Prop :=
  draw_template d ∈ context_templates self
  ∧ ∃ g0 g1, fill_template fuel self (draw_template d) g0
             = Return (draw_text d, draw_entities d, g1).

(** What the validation makes of a draw *)
Definition accepted (d : Draw) : option example :=
  validate (draw_text d) (draw_entities d).

Definition le_start (a b : span) : Prop := span_start a ≤ span_start b.

(** Two tokens in braces that differ right after the opening brace *)
Definition distinct_tokens (tok other : str) : Prop :=
  ∃ c1 r1 c2 r2, tok = ("{"%char :: c1 :: r1) ∧ other = ("{"%char :: c2 :: r2)
    ∧ (c1 ≠ c2) ∧ ("{"%char ∉ (c1 :: r1)) ∧ ("{"%char ∉ (c2 :: r2)).

(** ** Termination of the passes *)

(** The number of opening braces of a text *)
Definition brace_count (s : str) : nat := length (filter (λ c, c = "{"%char) s).

(** A generator on which the pass for PERSON does not end: the value holds
    none of the three placeholders, but put in place of the placeholder it
    makes one with the text around it. *)
Definition looping_generator : DataGenerator := {|
  person_names := [lit "SON}SON}{PER{PER"];
  org_names := [];
  location_names := [];
  context_templates := [lit "{PER{PERSON}"];
  generated_data := []
|}.

(** A text in which the search for [tok] finds nothing, whatever follows *)
Definition transparent (tok v a : str) : Prop :=
  ∀ rest, str_in tok (a ++ rest) = str_in tok rest
          ∧ replace_first tok v (a ++ rest) = a ++ replace_first tok v rest.

(** ** Sample inputs *)

Definition person_call (text : string) (placeholders_mode : bool) : Call :=
  {| call_text := lit text; call_type := lit "PERSONNE";
     call_config := {|
       mask_persons := true; mask_orgs := true; mask_locations := true;
       mask_dates := true; mask_emails := true; mask_phones := true;
       replacement_char := lit "X"; preserve_length := true;
       use_placeholders := placeholders_mode |} |}.

(** The scenario of the specification (section 8): one name, twice *)
Definition scenario_text : str := lit "Jean Dupont contacte Jean Dupont.".

Definition scenario_ents : list Ent :=
  [ent "PER" "Jean Dupont" 0 11; ent "PER" "Jean Dupont" 21 32].

(** ** A call of [pseudonymize] as a registry lifetime *)

(** The calls of the resolver that the loop over [doc.ents] makes *)
Definition entity_calls (self : TextPseudonymizer) (config : PseudonymizationConfig)
    (ents : list Ent) : list Call :=
  (λ e, {| call_text := text_ e; call_type := mapped_type self e; call_config := config |})
    <$> masked self config ents.

(** The source text with the spans [ms] replaced by [rs], from [lo] on: the
    text between the spans is that of the source *)
Fixpoint spliced (text : str) (lo : Z) (ms : list Ent) (rs : list str) : str :=
  match ms, rs with
  | e :: ms', r :: rs' => slice text lo (start_char e) ++ r ++ spliced text (end_char e) ms' rs'
  | _, _ => slice_from text lo
  end.

(** Every entry of the registry belongs to one of the six kinds *)
Definition registry_kinds (self : TextPseudonymizer) : Prop :=
  ∀ key v, correspondences self !! key = Some v →
    ∃ k l n, key = kind_name k ++ lit "_" ++ l ∧ v = kind_pseudonym k n.

(** The counters number the entries of each kind from 1 on, without gaps *)
Definition registry_numbered (self : TextPseudonymizer) : Prop :=
  (∀ k, 1 ≤ kind_counter k self)
  ∧ (∀ k l v, correspondences self !! (kind_name k ++ lit "_" ++ l) = Some v →
              ∃ n, v = kind_pseudonym k n ∧ 1 ≤ n < kind_counter k self)
  ∧ (∀ k n, 1 ≤ n < kind_counter k self →
            ∃ l, correspondences self !! (kind_name k ++ lit "_" ++ l)
                 = Some (kind_pseudonym k n)).

(** Two configurations that differ at most in [replacement_char] and
    [preserve_length] *)
Definition same_masks (c1 c2 : PseudonymizationConfig) : Prop :=
  mask_persons c1 = mask_persons c2 ∧ mask_orgs c1 = mask_orgs c2
  ∧ mask_locations c1 = mask_locations c2 ∧ mask_dates c1 = mask_dates c2
  ∧ mask_emails c1 = mask_emails c2 ∧ mask_phones c1 = mask_phones c2
  ∧ use_placeholders c1 = use_placeholders c2.

(** ** Loading the pools and the templates *)

(** [len(l)] of a list *)
Definition len_list {A : Type} (l : list A) : Z := Z.of_nat (length l).

(** [str.lstrip()], [str.rstrip()] and [str.strip()] *)
Fixpoint lstrip (s : str) : str :=
  match s with
  | [] => []
  | c :: s' => if is_space c then lstrip s' else s
  end.

Definition rstrip (s : str) : str := reverse (lstrip (reverse s)).

Definition strip (s : str) : str := rstrip (lstrip s).

(** [[line.strip() for line in f if line.strip()]] *)
Definition stripped_lines (lines : list str) : list str :=
  omap (λ line, if bool_decide (strip line ≠ []) then Some (strip line) else None) lines.

Definition set_pools (self : DataGenerator) (persons orgs locations : list str)
    : DataGenerator := {|
  person_names := persons;
  org_names := orgs;
  location_names := locations;
  context_templates := context_templates self;
  generated_data := generated_data self
|}.

Definition set_context_templates (self : DataGenerator) (templates : list str)
    : DataGenerator := {|
  person_names := person_names self;
  org_names := org_names self;
  location_names := location_names self;
  context_templates := templates;
  generated_data := generated_data self
|}.

(** [DataGenerator()] *)
Definition DataGenerator_init : DataGenerator := {|
  person_names := []; org_names := []; location_names := [];
  context_templates := []; generated_data := []
|}.

(** [load_directory_file].  The file is what opening and reading it gives:
    the lines it yields, or the text of the exception that was raised. *)
Definition load_directory_file (self : DataGenerator) (file : str + list str)
    (entity_type : str) : outcome (Z * DataGenerator) :=
  match file with
  | inr lines =>
      let names := stripped_lines lines in
      let self' :=
        if bool_decide (entity_type = lit "PERSON") then
          set_pools self (person_names self ++ names) (org_names self) (location_names self)
        else if bool_decide (entity_type = lit "ORG") then
          set_pools self (person_names self) (org_names self ++ names) (location_names self)
        else if bool_decide (entity_type = lit "LOC") then
          set_pools self (person_names self) (org_names self) (location_names self ++ names)
        else self in
      Return (len_list names, self')
  | inl e => Raise (lit "Erreur lors du chargement de l'annuaire : " ++ e)
  end.

(** [load_context_templates] *)
Definition load_context_templates (self : DataGenerator) (file : str + list str)
    : outcome (Z * DataGenerator) :=
  match file with
  | inr lines =>
      let templates := stripped_lines lines in
      Return (len_list templates, set_context_templates self templates)
  | inl e => Raise (lit "Erreur lors du chargement des contextes : " ++ e)
  end.

(** A text that is not empty and neither begins nor ends with whitespace *)
Definition trimmed (x : str) : Prop :=
  x ≠ []
  ∧ (∀ c, head x = Some c → is_space c = false)
  ∧ (∀ c, last x = Some c → is_space c = false).

(** ** Spans and pools *)

(** The pool from which the spans of a label are filled *)
Definition pool_of_label (self : DataGenerator) (label : str) : list str :=
  if bool_decide (label = lit "PERSON") then person_names self
  else if bool_decide (label = lit "ORG") then org_names self
  else if bool_decide (label = lit "LOC") then location_names self
  else [].

(** A span that starts at an index of a text and is as wide as a value of
    the pool of its label *)
Definition span_of_pool (self : DataGenerator) (sp : span) : Prop :=
  0 ≤ sp.1.1 ∧ ∃ v, v ∈ pool_of_label self sp.2 ∧ sp.1.2 = sp.1.1 + len v.

(** ** Templates as segments *)

(** The three placeholders *)
Inductive hole : Type := HPerson | HOrg | HLoc.

#[global] Instance hole_eq_dec : EqDecision hole.
Proof. solve_decision. Defined.

Definition hole_token (h : hole) : str :=
  match h with
  | HPerson => lit "{PERSON}"
  | HOrg => lit "{ORG}"
  | HLoc => lit "{LOC}"
  end.

Definition hole_label (h : hole) : str :=
  match h with
  | HPerson => lit "PERSON"
  | HOrg => lit "ORG"
  | HLoc => lit "LOC"
  end.

Definition hole_pool (self : DataGenerator) (h : hole) : list str :=
  match h with
  | HPerson => person_names self
  | HOrg => org_names self
  | HLoc => location_names self
  end.

(** The place of a placeholder in the order of the passes *)
Definition hole_rank (h : hole) : nat :=
  match h with
  | HPerson => 0
  | HOrg => 1
  | HLoc => 2
  end.

(** A template cut into its placeholders and the text around them *)
Inductive segment : Type :=
| Text (s : str)
| Hole (h : hole).

#[global] Instance segment_eq_dec : EqDecision segment.
Proof. solve_decision. Defined.

Definition render_segment (sg : segment) : str :=
  match sg with
  | Text s => s
  | Hole h => hole_token h
  end.

(** The template as the text that the generator reads *)
Fixpoint render (segs : list segment) : str :=
  match segs with
  | [] => []
  | sg :: rest => render_segment sg ++ render rest
  end.

(** A text without an opening brace *)
Definition plain (s : str) : Prop := "{"%char ∉ s.

(** The braces of the template are those of its placeholders *)
Definition well_formed (segs : list segment) : Prop := ∀ s, Text s ∈ segs → plain s.

(** The placeholders come in the text in the order of the passes, the first
    of them of rank [r] at least *)
Fixpoint holes_from (r : nat) (segs : list segment) : Prop :=
  match segs with
  | [] => True
  | Text _ :: rest => holes_from r rest
  | Hole h :: rest => (r ≤ hole_rank h)%nat ∧ holes_from (hole_rank h) rest
  end.

Fixpoint count_holes (segs : list segment) : nat :=
  match segs with
  | [] => 0
  | Text _ :: rest => count_holes rest
  | Hole _ :: rest => S (count_holes rest)
  end.

(** The spans lie between [lo] and [hi] one after the other, and each holds
    in the text [t] a value of the pool of its label *)
Fixpoint spans_between (self : DataGenerator) (t : str) (lo hi : Z) (es : list span) : Prop :=
  match es with
  | [] => lo ≤ hi
  | (a, b, l) :: es' =>
      lo ≤ a ∧ a ≤ b
      ∧ (∃ h, l = hole_label h ∧ slice t a b ∈ hole_pool self h)
      ∧ spans_between self t b hi es'
  end.

(** ** pseudonymizer_simple.py: the grouping loop of [process_file] *)

(** The dictionary that the loop appends for an entity: its 'original',
    'remplacement' and 'position' *)
Definition group_entry (entity : EntityRecord) : str * str * str :=
  (original entity, replacement entity, position entity).

(** One turn of [for entity in result['entities']] *)
Definition group_step (entites_par_type : gmap str (list (str * str * str)))
    (entity : EntityRecord) : gmap str (list (str * str * str)) :=
  let entity_type := type_ entity in
  let entites_par_type :=
    if bool_decide (entites_par_type !! entity_type = None)
    then <[entity_type := []]> entites_par_type
    else entites_par_type in
  <[entity_type := default [] (entites_par_type !! entity_type) ++ [group_entry entity]]>
    entites_par_type.

(** 'entites_par_type' when the loop has ended *)
Definition entites_par_type (entities : list EntityRecord) : gmap str (list (str * str * str)) :=
  fold_left group_step entities ∅.

(** The entities of one type, in the order of the list, as entries *)
Definition entries_of_type (entity_type : str) (entities : list EntityRecord)
    : list (str * str * str) :=
  group_entry <$> filter (λ entity, type_ entity = entity_type) entities.


(** A generator with one value in each pool and a template in which the
    location stands before the person *)
Definition directory_generator : DataGenerator := {|
  person_names := [lit "Jean Dupont"];
  org_names := [lit "Microsoft France"];
  location_names := [lit "Marseille"];
  context_templates := [lit "De {LOC}, {PERSON} appelle."];
  generated_data := []
|}.

(** The template of the coverage example, cut at its placeholders *)
Definition coverage_segments : list segment :=
  [Hole HPerson; Text (lit " travaille chez "); Hole HOrg; Text (lit " depuis janvier.")].


(** * Properties *)

(** ** The matcher *)

Section Matcher.
Implicit Types (r : regex) (prev : option ascii) (s : str).

(** A match ends at a position of the text it started in. *)
Lemma rx_match_suffix r prev s k res :
  rx_match r prev s k = Some res →
  ∃ prev' s', s' `suffix_of` s ∧ k prev' s' = Some res.
Proof.
  revert prev s k. induction r as [|p| |r1 IH1 r2 IH2|r1 IH1 r2 IH2|r1 IH1];
    intros prev s k; simpl.
  - intros H. by exists prev, s.
  - destruct s as [|c s]; [done|]. destruct (p c); [|done].
    intros H. exists (Some c), s. split; [by apply suffix_cons_r|done].
  - destruct (xorb _ _); [|done]. intros H. by exists prev, s.
  - intros (p1 & s1 & Hs1 & (p2 & s2 & Hs2 & H)%IH2)%IH1.
    exists p2, s2. split; [by etrans|done].
  - destruct (rx_match r1 prev s k) eqn:E1.
    + intros ?; simplify_eq. by apply IH1 in E1.
    + apply IH2.
  - generalize (length s) at 1. intros fuel. revert prev s.
    induction fuel as [|fuel IHf]; intros prev s; [intros H; by exists prev, s|].
    destruct (rx_match r1 prev s _) eqn:E1.
    + intros ?; simplify_eq. apply IH1 in E1 as (p1 & s1 & Hs1 & H).
      destruct (length s1 <? length s)%nat; [|done].
      apply IHf in H as (p2 & s2 & Hs2 & H). exists p2, s2. split; [by etrans|done].
    + intros H. by exists prev, s.
Qed.

Lemma rx_search_eq r prev s :
  rx_search r prev s
  = match rx_match_here r prev s with
    | Some rest => Some ([], take (length s - length rest) s, rest)
    | None =>
        match s with
        | [] => None
        | c :: s' =>
            match rx_search r (Some c) s' with
            | Some (skipped, m, rest) => Some (c :: skipped, m, rest)
            | None => None
            end
        end
    end.
Proof. by destruct s. Qed.

(** The search cuts the text in three. *)
Lemma rx_search_split r prev s skipped m rest :
  rx_search r prev s = Some (skipped, m, rest) → s = skipped ++ m ++ rest.
Proof.
  revert prev skipped. induction s as [|c s IH]; intros prev skipped; rewrite rx_search_eq.
  - destruct (rx_match_here r prev []) as [rest0|] eqn:E; [|done].
    intros ?; simplify_eq.
    apply rx_match_suffix in E as (_ & s' & [x Hs] & ?). simplify_eq.
    symmetry in Hs. apply app_eq_nil in Hs as [_ ->]. done.
  - destruct (rx_match_here r prev (c :: s)) as [rest0|] eqn:E.
    + intros ?; simplify_eq.
      apply rx_match_suffix in E as (_ & s' & [x Hs] & ?). simplify_eq.
      rewrite Hs, length_app.
      replace (length x + length rest - length rest)%nat with (length x) by lia.
      by rewrite take_app_length.
    + destruct (rx_search r (Some c) s) as [[[sk m0] rest0]|] eqn:E2; [|done].
      intros ?; simplify_eq. apply IH in E2. by rewrite E2.
Qed.

(** The scan for the matches ends before its iterations run out: with any
    two bounds above the length of the text it finds the same matches. *)
Lemma rx_split_fuel r fuel1 fuel2 prev s :
  (length s < fuel1)%nat → (length s < fuel2)%nat →
  rx_split fuel1 r prev s = rx_split fuel2 r prev s.
Proof.
  revert fuel2 prev s. induction fuel1 as [|fuel1 IH]; intros fuel2 prev s H1 H2; [lia|].
  destruct fuel2 as [|fuel2]; [lia|]. simpl.
  destruct (rx_search r prev s) as [[[skipped m] rest]|] eqn:E; [|done].
  apply rx_search_split in E. subst s. rewrite !length_app in H1, H2.
  destruct m as [|c0 m].
  - destruct rest as [|c rest]; [done|]. simpl in H1, H2.
    by rewrite (IH fuel2 (Some c) rest) by lia.
  - simpl in H1, H2. by rewrite (IH fuel2 (last (c0 :: m)) rest) by lia.
Qed.

(** The matches, the text between them and the tail make up the text. *)
Lemma rx_split_text r fuel prev s :
  (length s < fuel)%nat →
  mjoin ((λ p, p.1 ++ p.2) <$> (rx_split fuel r prev s).1) ++ (rx_split fuel r prev s).2 = s.
Proof.
  revert prev s. induction fuel as [|fuel IH]; intros prev s Hf; [lia|]. simpl.
  destruct (rx_search r prev s) as [[[skipped m] rest]|] eqn:E; [|done].
  apply rx_search_split in E. subst s. rewrite !length_app in Hf.
  destruct m as [|c0 m].
  - destruct rest as [|c rest]; [simpl; by rewrite !app_nil_r|]. simpl in Hf.
    specialize (IH (Some c) rest ltac:(lia)).
    destruct (rx_split fuel r (Some c) rest) as [[|[g m'] ps] tl]; simpl in *.
    + rewrite !app_nil_r. by rewrite IH.
    + rewrite !app_nil_r. rewrite <- IH. by rewrite <- (assoc_L (++) skipped).
  - simpl in Hf. specialize (IH (last (c0 :: m)) rest ltac:(lia)).
    destruct (rx_split fuel r (last (c0 :: m)) rest) as [ps tl]. simpl in *.
    subst rest. by rewrite <- !(assoc_L (++)).
Qed.

End Matcher.

(** ** The replacement registry *)

Section Registry.
Implicit Types (self : TextPseudonymizer) (config : PseudonymizationConfig).

Lemma fresh_replacement_correspondences self t ty config :
  correspondences (fresh_replacement self t ty config).2 = correspondences self.
Proof.
  unfold fresh_replacement.
  repeat (case_match; [reflexivity|]); reflexivity.
Qed.

(** A key that is present is answered from the registry, and nothing changes. *)
Lemma resolve_hit self t ty config v :
  correspondences self !! registry_key ty t = Some v →
  _generate_consistent_replacement self t ty config = (v, self).
Proof. intros H. unfold _generate_consistent_replacement. by rewrite H. Qed.

(** A key that is absent gets the fresh pseudonym, which is stored. *)
Lemma resolve_miss self t ty config :
  correspondences self !! registry_key ty t = None →
  _generate_consistent_replacement self t ty config =
    ((fresh_replacement self t ty config).1,
     set_correspondences (fresh_replacement self t ty config).2
       (<[registry_key ty t := (fresh_replacement self t ty config).1]>
          (correspondences self))).
Proof.
  intros H. unfold _generate_consistent_replacement. rewrite H.
  pose proof (fresh_replacement_correspondences self t ty config) as Hc.
  destruct (fresh_replacement self t ty config) as [r s1]; simpl in *.
  by rewrite Hc.
Qed.

(** After a call the registry maps the key of the call to its result. *)
Lemma resolve_stored self t ty config :
  correspondences (_generate_consistent_replacement self t ty config).2
    !! registry_key ty t
  = Some (_generate_consistent_replacement self t ty config).1.
Proof.
  destruct (correspondences self !! registry_key ty t) as [v|] eqn:E.
  - by rewrite (resolve_hit _ _ _ _ _ E).
  - rewrite (resolve_miss _ _ _ _ E). simpl. apply lookup_insert_eq.
Qed.

(** The registry only grows: no entry is changed or removed. *)
Lemma resolve_preserves self t ty config k v :
  correspondences self !! k = Some v →
  correspondences (_generate_consistent_replacement self t ty config).2 !! k = Some v.
Proof.
  intros Hk.
  destruct (correspondences self !! registry_key ty t) as [w|] eqn:E.
  - by rewrite (resolve_hit _ _ _ _ _ E).
  - rewrite (resolve_miss _ _ _ _ E). cbn [snd set_correspondences correspondences].
    rewrite lookup_insert_ne; [done|]. intros Heq. rewrite <- Heq in Hk. congruence.
Qed.

Lemma resolve_dom self t ty config :
  dom (correspondences (_generate_consistent_replacement self t ty config).2)
  = {[registry_key ty t]} ∪ dom (correspondences self).
Proof.
  destruct (correspondences self !! registry_key ty t) as [w|] eqn:E.
  - rewrite (resolve_hit _ _ _ _ _ E). simpl.
    assert (registry_key ty t ∈ dom (correspondences self)) by (apply elem_of_dom; eauto).
    set_solver.
  - rewrite (resolve_miss _ _ _ _ E). simpl. apply dom_insert_L.
Qed.

Lemma resolve_all_cons self c calls :
  resolve_all self (c :: calls) =
    let r := _generate_consistent_replacement self (call_text c) (call_type c) (call_config c) in
    (r.1 :: (resolve_all r.2 calls).1, (resolve_all r.2 calls).2).
Proof.
  simpl. destruct (_generate_consistent_replacement _ _ _ _) as [r s1].
  simpl. by destruct (resolve_all s1 calls).
Qed.

Lemma resolve_all_length self calls :
  length (resolve_all self calls).1 = length calls.
Proof.
  revert self. induction calls as [|c calls IH]; intros self; [done|].
  rewrite resolve_all_cons. simpl. by rewrite IH.
Qed.

Lemma resolve_all_preserves self calls k v :
  correspondences self !! k = Some v →
  correspondences (resolve_all self calls).2 !! k = Some v.
Proof.
  revert self. induction calls as [|c calls IH]; intros self Hk; [done|].
  rewrite resolve_all_cons. simpl. apply IH. by apply resolve_preserves.
Qed.

(** Every call of a lifetime returns what the registry holds for its key at
    the end of the lifetime. *)
Lemma resolve_all_stored self calls i c :
  calls !! i = Some c →
  ∃ p, (resolve_all self calls).1 !! i = Some p
       ∧ correspondences (resolve_all self calls).2 !! call_key c = Some p.
Proof.
  revert self i. induction calls as [|c0 calls IH]; intros self i Hi; [done|].
  rewrite resolve_all_cons. destruct i as [|i]; simpl in *.
  - injection Hi as ->. eexists. split; [reflexivity|].
    apply resolve_all_preserves, resolve_stored.
  - by apply IH.
Qed.

Lemma resolve_all_dom self calls :
  dom (correspondences (resolve_all self calls).2)
  = dom (correspondences self) ∪ list_to_set (call_key <$> calls).
Proof.
  revert self. induction calls as [|c calls IH]; intros self.
  - simpl. set_solver.
  - rewrite resolve_all_cons. cbv zeta. cbn [fst snd].
    rewrite IH, resolve_dom, fmap_cons, list_to_set_cons.
    unfold call_key at 2. set_solver.
Qed.

(** C1. Within one registry lifetime, two calls of the resolver with the
    same entity type and with original texts that are equal up to case
    return the same pseudonym, in whatever mode each call is made, and at
    the end the registry holds that pseudonym under the one key of the two
    calls; the keys of the registry are those it started with and one per
    distinct key of the calls. *)
Theorem same_key_same_pseudonym self calls i j ci cj :
  calls !! i = Some ci →
  calls !! j = Some cj →
  call_type ci = call_type cj →
  lower (call_text ci) = lower (call_text cj) →
  (∃ p, (resolve_all self calls).1 !! i = Some p
        ∧ (resolve_all self calls).1 !! j = Some p
        ∧ correspondences (resolve_all self calls).2
            !! registry_key (call_type ci) (call_text ci) = Some p)
  ∧ dom (correspondences (resolve_all self calls).2)
    = dom (correspondences self) ∪ list_to_set (call_key <$> calls).
Proof.
  intros Hi Hj Hty Hlow. split; [|apply resolve_all_dom].
  destruct (resolve_all_stored self calls i ci Hi) as (p & Hp & Hkp).
  destruct (resolve_all_stored self calls j cj Hj) as (q & Hq & Hkq).
  assert (call_key ci = call_key cj) as Hkey.
  { unfold call_key, registry_key. by rewrite Hty, Hlow. }
  rewrite Hkey, Hkq in Hkp. injection Hkp as ->.
  exists p. repeat split; try done. by rewrite <- Hkey in Hkq.
Qed.

End Registry.

(** ** Distinct pseudonyms in consistent mode *)

Section Distinctness.
Implicit Types (self : TextPseudonymizer) (config : PseudonymizationConfig) (k : kind).

Lemma lit_inj (a b : string) : lit a = lit b → a = b.
Proof.
  unfold lit. intros H.
  rewrite <- (string_of_list_ascii_of_string a), <- (string_of_list_ascii_of_string b).
  by rewrite H.
Qed.

Lemma fmt_int_inj (n m : Z) : fmt_int n = fmt_int m → n = m.
Proof. unfold fmt_int. intros H%lit_inj. by apply (inj pretty). Qed.

Lemma kind_pseudonym_inj k n m : kind_pseudonym k n = kind_pseudonym k m → n = m.
Proof.
  destruct k; unfold kind_pseudonym; intros H.
  1-4: by apply app_inv_head, fmt_int_inj in H.
  all: by apply app_inv_head, app_inv_tail, fmt_int_inj in H.
Qed.

(** The key tells the kind and the normalised text. *)
Lemma kind_key_inj k1 k2 (l1 l2 : str) :
  kind_name k1 ++ lit "_" ++ l1 = kind_name k2 ++ lit "_" ++ l2 → k1 = k2 ∧ l1 = l2.
Proof.
  destruct k1, k2; cbn; intros H; try discriminate H; split; try reflexivity;
    by simplify_eq.
Qed.

Lemma fresh_replacement_kind self t k config :
  use_placeholders config = false →
  fresh_replacement self t (kind_name k) config
  = (kind_pseudonym k (kind_counter k self), bump k self).
Proof.
  intros Hc. unfold fresh_replacement. rewrite Hc.
  destruct k; cbn [kind_name];
    repeat (case_decide as Hd; [first [discriminate Hd | reflexivity]|]); done.
Qed.

Lemma bump_counter k k' self :
  kind_counter k' (bump k self) = if decide (k' = k) then kind_counter k' self + 1
                                  else kind_counter k' self.
Proof. destruct k, k'; reflexivity. Qed.

Lemma registry_inv_init model : registry_inv (TextPseudonymizer_init model).
Proof. split; intros *; cbn [correspondences TextPseudonymizer_init]; by rewrite lookup_empty. Qed.

Lemma registry_inv_step self t k config :
  use_placeholders config = false →
  registry_inv self →
  registry_inv (_generate_consistent_replacement self t (kind_name k) config).2.
Proof.
  intros Hc [Hfmt Hinj].
  destruct (correspondences self !! registry_key (kind_name k) t) as [w|] eqn:E.
  { rewrite (resolve_hit _ _ _ _ _ E). by split. }
  rewrite (resolve_miss _ _ _ _ E), (fresh_replacement_kind _ _ _ _ Hc).
  cbn [fst snd].
  set (m' := <[registry_key (kind_name k) t := kind_pseudonym k (kind_counter k self)]>
               (correspondences self)).
  assert (∀ k', kind_counter k' self ≤
                kind_counter k' (set_correspondences (bump k self) m')) as Hmono.
  { intros k'. transitivity (kind_counter k' (bump k self)).
    - rewrite bump_counter. case_decide; lia.
    - by destruct k'. }
  assert (kind_counter k self <
          kind_counter k (set_correspondences (bump k self) m')) as Hlt.
  { assert (kind_counter k (bump k self) = kind_counter k self + 1) as Hb.
    { rewrite bump_counter. by rewrite decide_True. }
    destruct k; cbn in *; lia. }
  unfold registry_inv. cbn [correspondences set_correspondences].
  subst m'. unfold registry_key in *.
  split.
  - intros k' l v Hl. destruct (decide (kind_name k ++ lit "_" ++ lower t
                                        = kind_name k' ++ lit "_" ++ l)) as [Heq|Hne].
    + rewrite <- Heq, lookup_insert_eq in Hl. injection Hl as <-.
      apply kind_key_inj in Heq as [<- _]. eauto.
    + rewrite lookup_insert_ne in Hl by done.
      destruct (Hfmt _ _ _ Hl) as (n & -> & Hn). exists n. split; [done|].
      specialize (Hmono k'). lia.
  - intros k' l1 l2 v H1 H2.
    destruct (decide (kind_name k ++ lit "_" ++ lower t
                      = kind_name k' ++ lit "_" ++ l1)) as [Heq1|Hne1];
    destruct (decide (kind_name k ++ lit "_" ++ lower t
                      = kind_name k' ++ lit "_" ++ l2)) as [Heq2|Hne2].
    + apply kind_key_inj in Heq1 as [_ <-]. by apply kind_key_inj in Heq2 as [_ <-].
    + rewrite <- Heq1, lookup_insert_eq in H1. injection H1 as <-.
      rewrite lookup_insert_ne in H2 by done.
      apply kind_key_inj in Heq1 as [<- _].
      destruct (Hfmt _ _ _ H2) as (n & Hn%kind_pseudonym_inj & ?). lia.
    + rewrite <- Heq2, lookup_insert_eq in H2. injection H2 as <-.
      rewrite lookup_insert_ne in H1 by done.
      apply kind_key_inj in Heq2 as [<- _].
      destruct (Hfmt _ _ _ H1) as (n & Hn%kind_pseudonym_inj & ?). lia.
    + rewrite lookup_insert_ne in H1, H2 by done. eauto.
Qed.

Lemma registry_inv_resolve_all self calls :
  Forall consistent_call calls →
  registry_inv self →
  registry_inv (resolve_all self calls).2.
Proof.
  intros Hcalls. revert self.
  induction Hcalls as [|c calls [Hc [k Hk]] _ IH]; intros self Hinv; [done|].
  rewrite resolve_all_cons. cbn [snd]. apply IH. rewrite Hk.
  by apply registry_inv_step.
Qed.

(** C4, as amended.  In a registry lifetime that starts with a new object
    and in which every call is made in consistent mode for one of the six
    types that have a counter, two calls with the same type and with
    original texts that differ after normalisation return distinct
    pseudonyms. *)
Theorem distinct_keys_distinct_pseudonyms model calls i j ci cj p q :
  Forall consistent_call calls →
  calls !! i = Some ci →
  calls !! j = Some cj →
  call_type ci = call_type cj →
  lower (call_text ci) ≠ lower (call_text cj) →
  (resolve_all (TextPseudonymizer_init model) calls).1 !! i = Some p →
  (resolve_all (TextPseudonymizer_init model) calls).1 !! j = Some q →
  p ≠ q.
Proof.
  intros Hcalls Hi Hj Hty Hlow Hp Hq ->.
  pose proof (registry_inv_resolve_all _ _ Hcalls (registry_inv_init model)) as [_ Hinj].
  destruct (resolve_all_stored (TextPseudonymizer_init model) calls i ci Hi)
    as (p' & Hp' & Hkp).
  destruct (resolve_all_stored (TextPseudonymizer_init model) calls j cj Hj)
    as (q' & Hq' & Hkq).
  rewrite Hp in Hp'. rewrite Hq in Hq'. simplify_eq.
  assert (consistent_call ci) as [_ [k Hk]].
  { eapply Forall_forall; [exact Hcalls|]. eapply list_elem_of_lookup_2, Hi. }
  unfold call_key, registry_key in Hkp, Hkq. rewrite <- Hty, Hk in Hkq. rewrite Hk in Hkp.
  apply Hlow. eapply Hinj; eassumption.
Qed.

(** C4, as stated, fails for a type without a counter: in consistent mode
    two distinct originals of the type MISC get the same pseudonym.  The
    same happens for a type with a counter when the two keys were first
    resolved in placeholder mode, since the stored pseudonym is returned
    whatever the mode of the later call. *)
Lemma unmapped_type_collision :
  let calls := [ {| call_text := lit "abc"; call_type := lit "MISC";
                    call_config := default_config |};
                 {| call_text := lit "xyz"; call_type := lit "MISC";
                    call_config := default_config |} ] in
  let mixed := [person_call "Jean Dupont" true; person_call "Marie Curie" true;
                person_call "Jean Dupont" false; person_call "Marie Curie" false] in
  use_placeholders default_config = false
  ∧ registry_key (lit "MISC") (lit "abc") ≠ registry_key (lit "MISC") (lit "xyz")
  ∧ (resolve_all (TextPseudonymizer_init (λ _, [])) calls).1 = [lit "XXX"; lit "XXX"]
  ∧ (resolve_all (TextPseudonymizer_init (λ _, [])) mixed).1
    = [lit "[PERSONNE]"; lit "[PERSONNE]"; lit "[PERSONNE]"; lit "[PERSONNE]"].
Proof.
  split; [reflexivity|]. split; [discriminate|]. split; vm_compute; reflexivity.
Qed.

(** C4 on two persons *)
Lemma distinct_keys_distinct_pseudonyms_witness :
  let calls := [ {| call_text := lit "Jean Dupont"; call_type := lit "PERSONNE";
                    call_config := default_config |};
                 {| call_text := lit "Marie Curie"; call_type := lit "PERSONNE";
                    call_config := default_config |} ] in
  lit "PERSONNE_1" ≠ lit "PERSONNE_2".
Proof.
  intros calls.
  apply (distinct_keys_distinct_pseudonyms (λ _, []) calls 0 1
           {| call_text := lit "Jean Dupont"; call_type := lit "PERSONNE";
              call_config := default_config |}
           {| call_text := lit "Marie Curie"; call_type := lit "PERSONNE";
              call_config := default_config |}).
  - repeat constructor; by exists Person.
  - reflexivity.
  - reflexivity.
  - reflexivity.
  - vm_compute. discriminate.
  - vm_compute. reflexivity.
  - vm_compute. reflexivity.
Defined.

End Distinctness.

(** ** The span rewriter *)

Section Splice.
Context {A : Type}.
Implicit Types (t r x : list A) (a b n p : nat).

Lemma splice_length t r a b :
  (a ≤ b ≤ length t)%nat →
  length (take a t ++ r ++ drop b t) = (a + length r + (length t - b))%nat.
Proof. intros H. rewrite !length_app, length_take, length_drop. lia. Qed.

Lemma splice_drop_after t r a b :
  (a ≤ length t)%nat →
  drop (a + length r) (take a t ++ r ++ drop b t) = drop b t.
Proof.
  intros H. rewrite drop_app_ge by (rewrite length_take; lia).
  rewrite length_take, Nat.min_l by lia.
  replace (a + length r - a)%nat with (length r) by lia.
  by rewrite drop_app_length.
Qed.

Lemma splice_keep_before t x a p n :
  (p + n ≤ a)%nat → (a ≤ length t)%nat →
  take n (drop p (take a t ++ x)) = take n (drop p t).
Proof.
  intros H1 H2. rewrite drop_app_le by (rewrite length_take; lia).
  rewrite take_app_le by (rewrite length_drop, length_take; lia).
  rewrite !take_drop_commute, take_take. do 2 f_equal. lia.
Qed.

Lemma splice_at t r x a :
  (a ≤ length t)%nat →
  take (length r) (drop a (take a t ++ r ++ x)) = r.
Proof.
  intros H. rewrite drop_app_ge by (rewrite length_take; lia).
  rewrite length_take, Nat.min_l, Nat.sub_diag, drop_0 by lia.
  by rewrite take_app_length.
Qed.
End Splice.

Section Rewriter.
Implicit Types (self : TextPseudonymizer) (config : PseudonymizationConfig)
               (st : RewriteState) (ents : list Ent).

Lemma slice_index_in_range (n : nat) (i : Z) :
  0 ≤ i ≤ Z.of_nat n → slice_index n i = Z.to_nat i.
Proof.
  intros H. unfold slice_index.
  destruct (i <? 0) eqn:E1; [lia|]. rewrite E1.
  destruct (Z.of_nat n <? i) eqn:E2; [lia|]. reflexivity.
Qed.

Lemma slice_in_range (s : str) (i j : Z) :
  0 ≤ i → i ≤ j → j ≤ len s →
  slice s i j = take (Z.to_nat (j - i)) (drop (Z.to_nat i) s).
Proof.
  unfold len. intros H1 H2 H3. unfold slice.
  rewrite !slice_index_in_range by lia. f_equal. lia.
Qed.

Lemma sum_deltas_app (l1 l2 : list EntityRecord) :
  sum_deltas (l1 ++ l2) = sum_deltas l1 + sum_deltas l2.
Proof. induction l1 as [|r l1 IH]; simpl; [done|]. unfold sum_deltas in *. simpl. lia. Qed.

Lemma resolve_entity_mapping self t ty config :
  entity_mapping (_generate_consistent_replacement self t ty config).2 = entity_mapping self.
Proof.
  unfold _generate_consistent_replacement.
  destruct (correspondences self !! registry_key ty t); [done|].
  unfold fresh_replacement. repeat (case_match; simplify_eq; try done).
Qed.

Lemma rewrite_inv_init self text :
  rewrite_inv self text [] 0
    {| rw_self := self; rw_text := text; rw_offset := 0; rw_entities := [] |}.
Proof.
  split; simpl; try done; unfold len; try lia.
Qed.

(** An entity that is not masked leaves the state as it is. *)
Lemma rewrite_step_skip config st e :
  should_mask (mapped_type (rw_self st) e) config = false →
  rewrite_step config st e = st.
Proof. intros H. unfold rewrite_step. by rewrite H. Qed.

(** One replacement keeps the invariant. *)
Lemma rewrite_inv_step self config text done lo st e :
  rewrite_inv self text done lo st →
  should_mask (mapped_type self e) config = true →
  lo ≤ start_char e → start_char e ≤ end_char e → end_char e ≤ len text →
  len (text_ e) = end_char e - start_char e →
  rewrite_inv self text (done ++ [e]) (end_char e) (rewrite_step config st e).
Proof.
  intros [Hmap Hoff Hlen Hlo Hadj Hrest Hll Hlog] Hmask H1 H2 H3 H4.
  unfold rewrite_step.
  assert (mapped_type (rw_self st) e = mapped_type self e) as Hty.
  { unfold mapped_type. by rewrite Hmap. }
  rewrite Hty, Hmask.
  pose proof (resolve_entity_mapping (rw_self st) (text_ e) (mapped_type self e) config) as Hm.
  destruct (_generate_consistent_replacement _ _ _ _) as [repl self1].
  cbn [snd] in Hm.
  set (t := rw_text st) in *. set (off := rw_offset st) in *.
  set (log := rw_entities st) in *.
  unfold len in *.
  assert (slice_to t (start_char e + off) = take (Z.to_nat (start_char e + off)) t) as ->.
  { unfold slice_to. rewrite slice_index_in_range by lia. done. }
  assert (slice_from t (end_char e + off) = drop (Z.to_nat (end_char e + off)) t) as ->.
  { unfold slice_from. rewrite slice_index_in_range by lia. done. }
  set (a := Z.to_nat (start_char e + off)).
  set (b := Z.to_nat (end_char e + off)).
  assert (a ≤ b ≤ length t)%nat as Hab by lia.
  set (rec := {| original := text_ e; replacement := repl;
                 type_ := mapped_type self e;
                 position := fmt_int (start_char e) ++ lit "-" ++ fmt_int (end_char e) |}).
  assert (Z.to_nat (end_char e + (off + (Z.of_nat (length repl) - Z.of_nat (length (text_ e)))))
          = (a + length repl)%nat) as Hnew by lia.
  split; cbn [rw_self rw_text rw_offset rw_entities]; unfold len.
  - by rewrite Hm.
  - rewrite sum_deltas_app. unfold sum_deltas at 2, delta, len. simpl. lia.
  - rewrite splice_length by done. lia.
  - lia.
  - lia.
  - rewrite Hnew, splice_drop_after by lia.
    replace b with (Z.to_nat (lo + off) + Z.to_nat (end_char e - lo))%nat by lia.
    rewrite <- drop_drop, Hrest, drop_drop. f_equal. lia.
  - rewrite !length_app. simpl. lia.
  - intros i e' r Hi Hr.
    destruct (decide (i < length done)%nat) as [Hlt|Hge].
    + rewrite lookup_app_l in Hi by done. rewrite lookup_app_l in Hr by lia.
      rewrite take_app_le by lia.
      destruct (Hlog i e' r Hi Hr) as (Ho & Hp0 & Hp1 & Hp2).
      split; [done|]. split; [done|]. split; [lia|].
      rewrite splice_keep_before; [done| |lia].
      fold off in Hp1. lia.
    + assert (i = length done) as ->.
      { apply lookup_lt_Some in Hi. rewrite length_app in Hi. simpl in Hi. lia. }
      rewrite lookup_app_r in Hi by lia. rewrite Nat.sub_diag in Hi. simpl in Hi.
      rewrite <- Hll in Hr. rewrite lookup_app_r in Hr by done.
      rewrite Nat.sub_diag in Hr. simpl in Hr. simplify_eq.
      rewrite <- Hll, take_app_length. fold log. rewrite <- Hoff.
      cbn [original replacement]. fold a.
      split; [done|]. split; [lia|]. split; [lia|].
      by apply splice_at; lia.
Qed.

(** The invariant holds after the whole loop. *)
Lemma rewrite_inv_fold self config text ents done lo st :
  rewrite_inv self text done lo st →
  ordered_spans lo (len text) (masked self config ents) →
  ∃ lo', rewrite_inv self text (done ++ masked self config ents) lo'
           (fold_left (rewrite_step config) ents st).
Proof.
  revert done lo st. induction ents as [|e ents IH]; intros done lo st Hinv Hord.
  - exists lo. by rewrite app_nil_r.
  - unfold masked in *. simpl. rewrite filter_cons in Hord |- *.
    destruct (decide (should_mask (mapped_type self e) config = true)) as [Hm|Hm].
    + simpl in Hord. destruct Hord as (H1 & H2 & H3 & H4 & Hord).
      destruct (IH (done ++ [e]) (end_char e) (rewrite_step config st e)) as [lo' Hlo'].
      * by apply rewrite_inv_step with (lo := lo).
      * done.
      * exists lo'. by rewrite <- app_assoc in Hlo'.
    + rewrite rewrite_step_skip; [by apply (IH done lo)|].
      apply not_true_is_false. unfold mapped_type in *.
      by rewrite (inv_mapping _ _ _ _ _ Hinv).
Qed.

(** C2. Offset integrity: when the masked entities of [doc.ents] come in
    ascending order, lie inside the text and do not overlap, the text after
    the loop over the entities (before the pass of the patterns) is as long
    as the source text plus the sum, over the replacements made, of the
    length of the replacement minus the length of the original; and every
    replacement stands in that text at the start of its span shifted by the
    length changes of the replacements before it. *)
Theorem offset_integrity self config text ents :
  let st := rewrite_ents config self text ents in
  let ms := masked self config ents in
  ordered_spans 0 (len text) ms →
  len (rw_text st) = len text + sum_deltas (rw_entities st)
  ∧ length (rw_entities st) = length ms
  ∧ ∀ i e r, ms !! i = Some e → rw_entities st !! i = Some r →
      let p := start_char e + sum_deltas (take i (rw_entities st)) in
      original r = text_ e
      ∧ slice (rw_text st) p (p + len (replacement r)) = replacement r.
Proof.
  intros st ms Hord.
  destruct (rewrite_inv_fold self config text ents [] 0 _ (rewrite_inv_init self text) Hord)
    as [lo' Hinv].
  fold (rewrite_ents config self text ents) in Hinv. fold st in Hinv.
  rewrite app_nil_l in Hinv. fold ms in Hinv.
  destruct Hinv as [Hmap Hoff Hlen Hlo Hadj Hrest Hll Hlog].
  split; [by rewrite <- Hoff|]. split; [done|].
  intros i e r Hi Hr p. destruct (Hlog i e r Hi Hr) as (Ho & Hp0 & Hp1 & Hp2).
  split; [done|]. fold p in Hp0, Hp1, Hp2.
  rewrite slice_in_range by (unfold len in *; lia).
  rewrite <- Hp2 at 2. f_equal. unfold len. lia.
Qed.

End Rewriter.

(** ** The pass of the patterns *)

Section Patterns.
Implicit Types (self : TextPseudonymizer) (config : PseudonymizationConfig).

(** Substituting with the resolver as callback is resolving the matches in
    order, as calls of one registry lifetime. *)
Lemma sub_pieces_resolve_all self ty config pieces :
  sub_pieces (λ m s, _generate_consistent_replacement s m ty config) pieces self
  = (weave pieces (resolve_all self (match_calls ty config pieces)).1,
     (resolve_all self (match_calls ty config pieces)).2).
Proof.
  revert self. induction pieces as [|[gap m] ps IH]; intros self; [done|].
  unfold match_calls. rewrite fmap_cons, resolve_all_cons. cbn [sub_pieces].
  cbn [call_text call_type call_config snd].
  destruct (_generate_consistent_replacement self m ty config) as [r s1].
  rewrite IH. reflexivity.
Qed.

Lemma re_sub_resolve_all self ty config (enabled : bool) r text :
  (if enabled
   then re_sub r (λ m s, _generate_consistent_replacement s m ty config) text self
   else (text, self))
  = let ms := matches_if enabled r text in
    let res := resolve_all self (match_calls ty config ms.1) in
    (weave ms.1 res.1 ++ ms.2, res.2).
Proof.
  unfold matches_if, re_sub. destruct enabled; [|done].
  destruct (rx_split _ _ _ _) as [pieces tl]. rewrite sub_pieces_resolve_all.
  reflexivity.
Qed.

(** Matches that are equal up to case get one pseudonym. *)
Lemma match_calls_same_pseudonym self ty config pieces i j pi pj :
  pieces !! i = Some pi → pieces !! j = Some pj →
  lower pi.2 = lower pj.2 →
  ∃ r, (resolve_all self (match_calls ty config pieces)).1 !! i = Some r
       ∧ (resolve_all self (match_calls ty config pieces)).1 !! j = Some r
       ∧ correspondences (resolve_all self (match_calls ty config pieces)).2
           !! registry_key ty pi.2 = Some r.
Proof.
  intros Hi Hj Hlow.
  set (calls := match_calls ty config pieces).
  assert (calls !! i = Some {| call_text := pi.2; call_type := ty; call_config := config |})
    as Hci by (unfold calls, match_calls; by rewrite list_lookup_fmap, Hi).
  assert (calls !! j = Some {| call_text := pj.2; call_type := ty; call_config := config |})
    as Hcj by (unfold calls, match_calls; by rewrite list_lookup_fmap, Hj).
  destruct (resolve_all_stored self calls i _ Hci) as (p & Hp & Hkp).
  destruct (resolve_all_stored self calls j _ Hcj) as (q & Hq & Hkq).
  unfold call_key, registry_key in *. cbn [call_text call_type] in *.
  rewrite <- Hlow, Hkp in Hkq. simplify_eq. eauto.
Qed.

(** C9.  The text that [pseudonymize] returns is the output of the loop over
    the entities in which the matches of the email pattern, and then in the
    result the matches of the phone pattern, have been replaced; the
    replacements are what the resolver returns for the matches, called in
    order on the object as the loop over the entities left it, with the
    types EMAIL and TELEPHONE; so two matches of a pattern that are equal up
    to case are replaced by one pseudonym, which the registry holds under
    their key. *)
Theorem patterns_after_entities self text (config : option PseudonymizationConfig) :
  let cfg := default default_config config in
  let st := rewrite_ents cfg self text (nlp self text) in
  let emails := matches_if (mask_emails cfg) (email_pattern (rw_self st)) (rw_text st) in
  let r1 := resolve_all (rw_self st) (match_calls (lit "EMAIL") cfg emails.1) in
  let text1 := weave emails.1 r1.1 ++ emails.2 in
  let phones := matches_if (mask_phones cfg) (phone_pattern r1.2) text1 in
  let r2 := resolve_all r1.2 (match_calls (lit "TELEPHONE") cfg phones.1) in
  pseudonymize self text config
  = ({| original_text := text;
        pseudonymized_text := weave phones.1 r2.1 ++ phones.2;
        entities := rw_entities st;
        result_correspondences := correspondences r2.2 |}, r2.2)
  ∧ (pseudonymize self text config).1.(pseudonymized_text)
    = (_pseudonymize_regex_patterns (rw_self st) (rw_text st) cfg).1
  ∧ (∀ i j pi pj, emails.1 !! i = Some pi → emails.1 !! j = Some pj →
       lower pi.2 = lower pj.2 →
       ∃ r, r1.1 !! i = Some r ∧ r1.1 !! j = Some r
            ∧ correspondences r2.2 !! registry_key (lit "EMAIL") pi.2 = Some r)
  ∧ (∀ i j pi pj, phones.1 !! i = Some pi → phones.1 !! j = Some pj →
       lower pi.2 = lower pj.2 →
       ∃ r, r2.1 !! i = Some r ∧ r2.1 !! j = Some r
            ∧ correspondences r2.2 !! registry_key (lit "TELEPHONE") pi.2 = Some r).
Proof.
  intros cfg st emails r1 text1 phones r2.
  assert (_pseudonymize_regex_patterns (rw_self st) (rw_text st) cfg
          = (weave phones.1 r2.1 ++ phones.2, r2.2)) as Hre.
  { unfold _pseudonymize_regex_patterns.
    rewrite (re_sub_resolve_all (rw_self st) (lit "EMAIL") cfg (mask_emails cfg)).
    cbv beta iota zeta. fold emails. fold r1. fold text1.
    rewrite (re_sub_resolve_all r1.2 (lit "TELEPHONE") cfg (mask_phones cfg)).
    reflexivity. }
  assert (pseudonymize self text config
          = ({| original_text := text;
                pseudonymized_text := weave phones.1 r2.1 ++ phones.2;
                entities := rw_entities st;
                result_correspondences := correspondences r2.2 |}, r2.2)) as Hps.
  { unfold pseudonymize, pseudonymize_with. fold cfg. fold st. by rewrite Hre. }
  split; [done|]. split; [by rewrite Hps, Hre|]. split.
  - intros i j pi pj Hi Hj Hlow.
    destruct (match_calls_same_pseudonym (rw_self st) (lit "EMAIL") cfg _ _ _ _ _ Hi Hj Hlow)
      as (r & Hr1 & Hr2 & Hk).
    exists r. repeat split; try done. by apply resolve_all_preserves.
  - intros i j pi pj Hi Hj Hlow.
    by apply match_calls_same_pseudonym with (pj := pj).
Qed.

End Patterns.

(** ** Searching and replacing a token *)

Section Search.
Implicit Types (tok s pre post v : str).

Lemma starts_with_prefix tok s : starts_with tok s = true ↔ ∃ b, s = tok ++ b.
Proof.
  revert s. induction tok as [|a tok IH]; intros s; simpl.
  - split; eauto.
  - destruct s as [|c s]; [split; [done|by intros [? ?]]|].
    case_decide as Hac.
    + subst c. rewrite IH. split; intros [b Hb]; exists b; by simplify_eq.
    + split; [done|]. intros [b Hb]. by simplify_eq.
Qed.

Lemma occurs_at_0 tok s : occurs_at tok s 0 ↔ starts_with tok s = true.
Proof.
  rewrite starts_with_prefix. split.
  - intros (a & b & -> & Ha). apply nil_length_inv in Ha as ->. eauto.
  - intros [b ->]. by exists [], b.
Qed.

Lemma occurs_at_S tok c s i : occurs_at tok (c :: s) (S i) ↔ occurs_at tok s i.
Proof.
  split.
  - intros (a & b & Hs & Ha). destruct a as [|c' a]; [done|].
    simpl in *. simplify_eq. by exists a, b.
  - intros (a & b & -> & Ha). exists (c :: a), b. simpl. by rewrite Ha.
Qed.

(** [tok in s], [s.find(tok)] and [s.replace(tok, v, 1)] agree on the
    first occurrence. *)
Lemma search_found tok s :
  str_in tok s = true →
  ∃ pre post, s = pre ++ tok ++ post
    ∧ first_occurrence tok pre post
    ∧ (∀ i, find_from tok s i = i + len pre)
    ∧ (∀ v, replace_first tok v s = pre ++ v ++ post).
Proof.
  induction s as [|c s IH]; simpl.
  - destruct (starts_with tok []) eqn:E; [|done]. intros _.
    apply starts_with_prefix in E as [b Hb].
    symmetry in Hb. apply app_eq_nil in Hb as [-> ->].
    exists [], []. repeat split.
    + intros i Hi. simpl in Hi. lia.
    + intros i. unfold len. simpl. lia.
  - destruct (starts_with tok (c :: s)) eqn:E.
    + intros _. apply starts_with_prefix in E as [b Hb].
      exists [], b. repeat split.
      * done.
      * intros i Hi. simpl in Hi. lia.
      * intros i. unfold len. simpl. lia.
      * intros v. rewrite Hb. by rewrite drop_app_length.
    + intros Hin. destruct (IH Hin) as (pre & post & -> & Hfirst & Hfind & Hrep).
      exists (c :: pre), post. repeat split.
      * intros [|i] Hi Hocc.
        -- apply occurs_at_0 in Hocc. simpl in Hocc. congruence.
        -- simpl in Hi. apply occurs_at_S in Hocc. apply (Hfirst i); [lia|done].
      * intros i. rewrite Hfind. unfold len. simpl length. lia.
      * intros v. by rewrite Hrep.
Qed.

Lemma str_in_occurs tok s : str_in tok s = true ↔ ∃ i, occurs_at tok s i.
Proof.
  split.
  - intros (pre & post & -> & _)%search_found. exists (length pre). by exists pre, post.
  - intros [i Hi]. revert i Hi. induction s as [|c s IH]; intros i Hi; simpl.
    + destruct Hi as (a & b & Hs & Ha). destruct a; [|done].
      assert (starts_with tok [] = true) as ->; [|done].
      apply starts_with_prefix. eauto.
    + destruct (starts_with tok (c :: s)) eqn:E; [done|].
      destruct i as [|i].
      * apply occurs_at_0 in Hi. congruence.
      * apply occurs_at_S in Hi. eauto.
Qed.

Lemma str_in_app tok a b s : s = a ++ tok ++ b → str_in tok s = true.
Proof. intros ->. apply str_in_occurs. exists (length a). by exists a, b. Qed.

End Search.

(** ** The passes of the generator *)

Section Passes.
Implicit Types (token label : str) (names : list str) (g : rng) (es : list span).

Lemma choice_elem {A} (seq : list A) g x g' : choice seq g = (Some x, g') → x ∈ seq.
Proof.
  unfold choice. intros H. injection H as H _. by eapply list_elem_of_lookup_2.
Qed.

Lemma substitute_kind_0 token label names g t es :
  substitute_kind 0 token label names g t es
  = if str_in token t && bool_decide (names ≠ []) then OutOfFuel else Return (t, es, g).
Proof. reflexivity. Qed.

Lemma substitute_kind_S fuel token label names g t es :
  substitute_kind (S fuel) token label names g t es
  = if str_in token t && bool_decide (names ≠ []) then
      match choice names g with
      | (None, _) => Raise (lit "IndexError")
      | (Some value, g') =>
          let pos := str_find token t in
          if bool_decide (pos ≠ -1) then
            substitute_kind fuel token label names g' (replace_first token value t)
              (es ++ [(pos, pos + len value, label)])
          else substitute_kind fuel token label names g' t es
      end
    else Return (t, es, g).
Proof. reflexivity. Qed.

Lemma loop_guard_false token names t :
  str_in token t && bool_decide (names ≠ []) = false →
  str_in token t = false ∨ names = [].
Proof.
  intros [H|H]%andb_false_iff; [by left|right].
  apply bool_decide_eq_false in H. by apply dec_stable.
Qed.

(** A pass that returns has done what the specification describes. *)
Lemma substitute_kind_pass fuel token label names g t es t' es' g' :
  substitute_kind fuel token label names g t es = Return (t', es', g') →
  kind_pass token label names t es t' es'.
Proof.
  revert g t es. induction fuel as [|fuel IH]; intros g t es.
  - rewrite substitute_kind_0.
    destruct (str_in token t && bool_decide (names ≠ [])) eqn:Hc; [done|].
    intros ?; simplify_eq. constructor. by apply loop_guard_false.
  - rewrite substitute_kind_S.
    destruct (str_in token t && bool_decide (names ≠ [])) eqn:Hc.
    + apply andb_true_iff in Hc as [Hin _].
      destruct (choice names g) as [[value|] g1] eqn:Hch; [|done].
      destruct (search_found _ _ Hin) as (pre & post & -> & Hfirst & Hfind & Hrep).
      cbv zeta. unfold str_find. rewrite Hfind, Hrep.
      rewrite bool_decide_eq_true_2 by (unfold len; lia).
      intros H%IH. replace (0 + len pre) with (len pre) in H by lia.
      eapply pass_step; eauto using choice_elem.
    + intros ?; simplify_eq. constructor. by apply loop_guard_false.
Qed.

(** A pass leaves the spans it finds where they are and adds after them. *)
Lemma kind_pass_prefix token label names t es t' es' :
  kind_pass token label names t es t' es' → es `prefix_of` es'.
Proof.
  induction 1 as [|pre post value es t' es' _ _ _ IH]; [done|].
  etrans; [|exact IH]. by apply prefix_app_r.
Qed.

Lemma fill_template_inv fuel self template g t es g' :
  fill_template fuel self template g = Return (t, es, g') →
  ∃ t1 e1 g1 t2 e2 g2,
    substitute_kind fuel (lit "{PERSON}") (lit "PERSON") (person_names self) g template []
      = Return (t1, e1, g1)
    ∧ substitute_kind fuel (lit "{ORG}") (lit "ORG") (org_names self) g1 t1 e1
      = Return (t2, e2, g2)
    ∧ substitute_kind fuel (lit "{LOC}") (lit "LOC") (location_names self) g2 t2 e2
      = Return (t, es, g').
Proof.
  unfold fill_template, mbind, outcome_bind.
  destruct (substitute_kind fuel (lit "{PERSON}") _ _ _ _ _) as [[[t1 e1] g1]| |] eqn:E1;
    try (intros H; discriminate H).
  destruct (substitute_kind fuel (lit "{ORG}") _ _ _ _ _) as [[[t2 e2] g2]| |] eqn:E2;
    try (intros H; discriminate H).
  intros H. by exists t1, e1, g1, t2, e2, g2.
Qed.

(** C5.  The placeholders of a template are substituted kind by kind, in
    the order PERSON, ORG, LOC whatever their order in the text: each pass
    replaces, as long as its token occurs, the first occurrence of the token
    in the string of that moment by a value of the pool of the kind, and
    records the span from the index found to that index plus the length of
    the value; the spans recorded by a pass stay as they are in the passes
    that follow. *)
Theorem kinds_in_fixed_order fuel self template g t es g' :
  fill_template fuel self template g = Return (t, es, g') →
  ∃ t1 e1 t2 e2,
    kind_pass (lit "{PERSON}") (lit "PERSON") (person_names self) template [] t1 e1
    ∧ kind_pass (lit "{ORG}") (lit "ORG") (org_names self) t1 e1 t2 e2
    ∧ kind_pass (lit "{LOC}") (lit "LOC") (location_names self) t2 e2 t es
    ∧ e1 `prefix_of` e2 ∧ e2 `prefix_of` es.
Proof.
  intros (t1 & e1 & g1 & t2 & e2 & g2 & H1 & H2 & H3)%fill_template_inv.
  apply substitute_kind_pass in H1, H2, H3.
  exists t1, e1, t2, e2. repeat split; eauto using kind_pass_prefix.
Qed.

End Passes.

(** ** The coverage example *)

Section Coverage.
Implicit Types (token label : str) (names : list str) (g : rng) (es : list span).

Lemma bind_Return {A B} (a : A) (f : A → outcome B) : Return a ≫= f = f a.
Proof. reflexivity. Qed.

Lemma choice_single {A} (x : A) g : choice [x] g = (Some x, λ n, g (S n)).
Proof. unfold choice. simpl length. by rewrite Nat.mod_1_r. Qed.

Lemma substitute_kind_stop fuel token label names g t es :
  str_in token t = false ∨ names = [] →
  substitute_kind fuel token label names g t es = Return (t, es, g).
Proof.
  intros H.
  assert (str_in token t && bool_decide (names ≠ []) = false) as Hc.
  { destruct H as [->| ->]; [done|]. by rewrite andb_false_r. }
  destruct fuel; [rewrite substitute_kind_0|rewrite substitute_kind_S]; by rewrite Hc.
Qed.

(** One iteration of a loop whose pool has one value *)
Lemma substitute_kind_single fuel token label value g t es :
  str_in token t = true →
  substitute_kind (S fuel) token label [value] g t es
  = substitute_kind fuel token label [value] (λ n, g (S n))
      (replace_first token value t)
      (es ++ [(str_find token t, str_find token t + len value, label)]).
Proof.
  intros Hin. rewrite substitute_kind_S, Hin, choice_single. simpl andb. cbv iota zeta.
  destruct (search_found _ _ Hin) as (pre & post & _ & _ & Hfind & _).
  rewrite bool_decide_eq_true_2; [done|].
  unfold str_find. rewrite Hfind. unfold len. lia.
Qed.

(** C6, as amended.  With the one template
    "{PERSON} travaille chez {ORG} depuis janvier." and the pools
    ["Jean Dupont"] and ["Microsoft"], generating one example gives the text
    "Jean Dupont travaille chez Microsoft depuis janvier." with the spans
    (0, 11, "PERSON") and (27, 36, "ORG"), in ascending order of start,
    whatever the random draws are. *)
Theorem coverage_example fuel g :
  training_data_of (generate_training_data (S fuel) coverage_generator 1 g)
  = Some [(lit "Jean Dupont travaille chez Microsoft depuis janvier.",
           [(0, 11, lit "PERSON"); (27, 36, lit "ORG")])].
Proof.
  unfold generate_training_data, coverage_generator. cbn [context_templates].
  rewrite bool_decide_eq_false_2 by done.
  change (Z.to_nat 1) with 1%nat. cbn [samples].
  unfold sample. cbn [context_templates]. rewrite choice_single.
  unfold fill_template. cbn [person_names org_names location_names].
  rewrite substitute_kind_single by reflexivity.
  rewrite substitute_kind_stop by (left; reflexivity).
  rewrite bind_Return. cbv beta iota zeta.
  rewrite substitute_kind_single by reflexivity.
  rewrite substitute_kind_stop by (left; reflexivity).
  rewrite bind_Return. cbv beta iota zeta.
  rewrite substitute_kind_stop by (by right).
  reflexivity.
Qed.

(** C6, as stated, fails: the span of the person is not (0, 12). *)
Lemma coverage_example_person_span :
  training_data_of (generate_training_data 1 coverage_generator 1 (λ _, O))
  ≠ Some [(lit "Jean Dupont travaille chez Microsoft depuis janvier.",
           [(0, 12, lit "PERSON"); (27, 36, lit "ORG")])].
Proof. vm_compute. intros H. discriminate H. Qed.

End Coverage.

(** ** Validation of the generated examples *)

Section Validation.
Implicit Types (token label : str) (names : list str) (g : rng) (es : list span).

Lemma insert_by_start_sorted x l :
  Sorted le_start l → Sorted le_start (insert_by_start x l).
Proof.
  induction 1 as [|y l Hs IH Hd]; simpl.
  - repeat constructor.
  - destruct (span_start x <=? span_start y) eqn:E.
    + constructor; [by constructor|]. constructor. unfold le_start. lia.
    + constructor; [done|].
      destruct Hd as [|z l Hyz]; simpl.
      * constructor. unfold le_start. lia.
      * destruct (span_start x <=? span_start z); constructor; unfold le_start in *; lia.
Qed.

Lemma sort_by_start_sorted l : Sorted le_start (sort_by_start l).
Proof. induction l; simpl; [constructor|by apply insert_by_start_sorted]. Qed.

Lemma insert_by_start_perm x l : insert_by_start x l ≡ₚ x :: l.
Proof.
  induction l as [|y l IH]; simpl; [done|].
  destruct (span_start x <=? span_start y); [done|].
  rewrite IH. apply Permutation_swap.
Qed.

Lemma sort_by_start_perm l : sort_by_start l ≡ₚ l.
Proof. induction l as [|x l IH]; simpl; [done|]. by rewrite insert_by_start_perm, IH. Qed.

Lemma sort_by_start_nonempty l : l ≠ [] → sort_by_start l ≠ [].
Proof.
  intros Hl Hs. pose proof (sort_by_start_perm l) as Hp. rewrite Hs in Hp.
  by apply Permutation_nil_l in Hp.
Qed.

Lemma omap_length_le {A B} (f : A → option B) (l : list A) :
  (length (omap f l) ≤ length l)%nat.
Proof.
  induction l as [|x l IH]; [done|].
  change (omap f (x :: l))
    with (match f x with Some y => y :: omap f l | None => omap f l end).
  destruct (f x); cbn [length]; lia.
Qed.

(** An example is accepted exactly when no placeholder is left and a span
    was recorded; what is accepted is the text with its spans sorted. *)
Lemma validate_spec t es ex :
  validate t es = Some ex
  ↔ (∀ ph, ph ∈ placeholders → str_in ph t = false) ∧ es ≠ []
    ∧ ex = (t, sort_by_start es).
Proof.
  unfold validate.
  destruct (existsb (λ placeholder, str_in placeholder t) placeholders) eqn:E; simpl.
  - split; [done|]. intros (Hph & _ & _).
    apply existsb_exists in E as (ph & Hin & Hph'). apply list_elem_of_In in Hin.
    rewrite (Hph ph Hin) in Hph'. done.
  - assert (∀ ph, ph ∈ placeholders → str_in ph t = false) as Hph.
    { intros ph Hin. destruct (str_in ph t) eqn:E'; [|done].
      assert (existsb (λ placeholder, str_in placeholder t) placeholders = true) as E2.
      { apply existsb_exists. exists ph. split; [by apply list_elem_of_In|done]. }
      congruence. }
    case_bool_decide as Hes.
    + split; [intros ?; by simplify_eq|]. by intros (_ & _ & ->).
    + split; [done|]. by intros (_ & Hne & _).
Qed.

Lemma lookup_occurrence (x tok y : str) (i : nat) :
  (i < length tok)%nat → (x ++ tok ++ y) !! (length x + i)%nat = tok !! i.
Proof.
  intros Hi. rewrite lookup_app_r by lia.
  replace (length x + i - length x)%nat with i by lia.
  by rewrite lookup_app_l.
Qed.

(** Occurrences of two distinct tokens do not overlap. *)
Lemma occurrences_disjoint tok other (x y z w : str) :
  distinct_tokens tok other →
  x ++ tok ++ y = z ++ other ++ w →
  (length z + length other ≤ length x)%nat ∨ (length x + length tok ≤ length z)%nat.
Proof.
  intros (c1 & r1 & c2 & r2 & -> & -> & Hc & H1 & H2) Heq.
  destruct (decide (length x = length z)) as [Hxz|Hxz].
  - exfalso. apply Hc.
    pose proof (lookup_occurrence x ("{"%char :: c1 :: r1) y 1) as L1.
    pose proof (lookup_occurrence z ("{"%char :: c2 :: r2) w 1) as L2.
    rewrite Heq, Hxz in L1. rewrite L1 in L2 by (simpl; lia).
    simpl in L2. specialize (L2 ltac:(lia)). by simplify_eq.
  - destruct (decide (length x < length z)%nat) as [Hlt|Hge].
    + destruct (decide (length x + length ("{"%char :: c1 :: r1) ≤ length z)%nat)
        as [?|Hov]; [by right|].
      exfalso. apply H1.
      pose proof (lookup_occurrence x ("{"%char :: c1 :: r1) y (length z - length x)) as L1.
      pose proof (lookup_occurrence z ("{"%char :: c2 :: r2) w 0) as L2.
      replace (length x + (length z - length x))%nat with (length z) in L1 by lia.
      rewrite Nat.add_0_r in L2. rewrite Heq in L1. rewrite L2 in L1 by (simpl; lia).
      specialize (L1 ltac:(lia)).
      destruct (length z - length x)%nat as [|k] eqn:Ek; [lia|].
      simpl in L1. symmetry in L1. by apply list_elem_of_lookup_2 in L1.
    + destruct (decide (length z + length ("{"%char :: c2 :: r2) ≤ length x)%nat)
        as [?|Hov]; [by left|].
      exfalso. apply H2.
      pose proof (lookup_occurrence z ("{"%char :: c2 :: r2) w (length x - length z)) as L1.
      pose proof (lookup_occurrence x ("{"%char :: c1 :: r1) y 0) as L2.
      replace (length z + (length x - length z))%nat with (length x) in L1 by lia.
      rewrite Nat.add_0_r in L2. rewrite <- Heq in L1. rewrite L2 in L1 by (simpl; lia).
      specialize (L1 ltac:(lia)).
      destruct (length x - length z)%nat as [|k] eqn:Ek; [lia|].
      simpl in L1. symmetry in L1. by apply list_elem_of_lookup_2 in L1.
Qed.

(** Replacing an occurrence of one token leaves the occurrences of a
    distinct token in the text. *)
Lemma replace_keeps_other tok other (x y v : str) :
  distinct_tokens tok other →
  str_in other (x ++ tok ++ y) = true →
  str_in other (x ++ v ++ y) = true.
Proof.
  intros Hd (i & z & w & Heq & _)%str_in_occurs.
  destruct (occurrences_disjoint _ _ _ _ _ _ Hd Heq) as [Hl|Hr].
  - assert (x = z ++ other ++ take (length x - length (z ++ other)) w) as Hx.
    { rewrite <- (take_app_length x (tok ++ y)) at 1. rewrite Heq.
      rewrite (assoc_L _ z other w), take_app_ge by (rewrite length_app; lia).
      by rewrite <- (assoc_L _ z other). }
    rewrite Hx, <- !(assoc_L (++)). by eapply str_in_app.
  - assert (y = drop (length x + length tok) z ++ other ++ w) as Hy.
    { rewrite <- (drop_app_length (x ++ tok) y) at 1.
      rewrite <- (assoc_L _ x tok y), Heq, length_app. by rewrite drop_app_le. }
    rewrite Hy. eapply (str_in_app _ (x ++ v ++ drop (length x + length tok) z) w).
    by rewrite <- !(assoc_L (++)).
Qed.

Lemma kind_pass_keeps_other token label names other t es t' es' :
  distinct_tokens token other →
  kind_pass token label names t es t' es' →
  str_in other t = true → str_in other t' = true.
Proof.
  intros Hd. induction 1 as [|pre post value es t' es' _ _ _ IH]; [done|].
  intros Hin. apply IH. by eapply replace_keeps_other.
Qed.

Lemma tokens_person_loc : distinct_tokens (lit "{PERSON}") (lit "{LOC}").
Proof.
  exists "P"%char, (lit "ERSON}"), "L"%char, (lit "OC}").
  repeat split; try done; intros H%(bool_decide_pack _); by vm_compute in H.
Qed.

Lemma tokens_org_loc : distinct_tokens (lit "{ORG}") (lit "{LOC}").
Proof.
  exists "O"%char, (lit "RG}"), "L"%char, (lit "OC}").
  repeat split; try done; intros H%(bool_decide_pack _); by vm_compute in H.
Qed.

(** A template that asks for a location is rejected when there is none. *)
Lemma empty_location_pool_rejects fuel self d :
  location_names self = [] →
  draw_ok fuel self d →
  str_in (lit "{LOC}") (draw_template d) = true →
  accepted d = None.
Proof.
  intros Hloc [_ (g0 & g1 & Hfill)] Hin.
  apply fill_template_inv in Hfill
    as (t1 & e1 & g1' & t2 & e2 & g2 & H1 & H2 & H3).
  rewrite Hloc, substitute_kind_stop in H3 by (by right). simplify_eq.
  apply substitute_kind_pass in H1, H2.
  apply (kind_pass_keeps_other _ _ _ _ _ _ _ _ tokens_person_loc H1) in Hin.
  apply (kind_pass_keeps_other _ _ _ _ _ _ _ _ tokens_org_loc H2) in Hin.
  unfold accepted, validate.
  assert (existsb (λ placeholder, str_in placeholder (draw_text d)) placeholders = true)
    as ->; [|done].
  apply existsb_exists. exists (lit "{LOC}"). split; [|done].
  apply list_elem_of_In. unfold placeholders. set_solver.
Qed.

(** The loop over the samples makes one draw per iteration and appends the
    accepted ones. *)
Lemma samples_draws fuel self n g acc data g' :
  samples fuel self n g acc = Return (data, g') →
  ∃ draws, length draws = n ∧ Forall (draw_ok fuel self) draws
           ∧ data = acc ++ omap accepted draws.
Proof.
  revert g acc. induction n as [|n IH]; intros g acc; simpl.
  - intros ?; simplify_eq. exists []. by rewrite app_nil_r.
  - unfold sample.
    destruct (choice (context_templates self) g) as [[template|] g0] eqn:Hch;
      [|intros H; discriminate H].
    destruct (fill_template fuel self template g0) as [[[t es] g1]| |] eqn:Hfill;
      try (intros H; discriminate H).
    rewrite bind_Return. cbv beta iota.
    set (d := {| draw_template := template; draw_text := t; draw_entities := es |}).
    assert (draw_ok fuel self d) as Hd.
    { split; [by eapply choice_elem|]. by exists g0, g1. }
    destruct (validate t es) as [ex|] eqn:Hv; rewrite bind_Return; cbv beta iota;
      intros (draws & Hlen & Hok & ->)%IH; exists (d :: draws);
      (split; [simpl; by rewrite Hlen|]); (split; [by constructor|]);
      change (omap accepted (d :: draws))
        with (match accepted d with
              | Some y => y :: omap accepted draws
              | None => omap accepted draws
              end);
      change (accepted d) with (validate t es); rewrite Hv.
    + by rewrite <- (assoc_L (++)).
    + done.
Qed.

(** C7.  A call of [generate_training_data] that returns has made one draw
    per requested sample, and its output is, in order, what the validation
    keeps of the draws: a draw is kept exactly when its text holds none of
    the three placeholders after the passes and a span was recorded, and
    then with the spans sorted by start; the others are dropped and not
    drawn again, so the output is at most as long as the count; and with
    an empty pool of locations no draw of a template that holds {LOC} is
    kept. *)
Theorem validation_keeps_complete_examples fuel self n g data self' g' :
  generate_training_data fuel self n g = Return (data, self', g') →
  ∃ draws,
    length draws = Z.to_nat n
    ∧ Forall (draw_ok fuel self) draws
    ∧ data = omap accepted draws
    ∧ (length data ≤ Z.to_nat n)%nat
    ∧ (∀ d ex, accepted d = Some ex
         ↔ (∀ ph, ph ∈ placeholders → str_in ph (draw_text d) = false)
           ∧ draw_entities d ≠ []
           ∧ ex = (draw_text d, sort_by_start (draw_entities d)))
    ∧ Forall (λ ex, (∀ ph, ph ∈ placeholders → str_in ph ex.1 = false)
                    ∧ ex.2 ≠ [] ∧ Sorted le_start ex.2) data
    ∧ (location_names self = [] →
       ∀ d, d ∈ draws → str_in (lit "{LOC}") (draw_template d) = true →
            accepted d = None).
Proof.
  unfold generate_training_data. case_bool_decide as Ht; [intros H; discriminate H|].
  destruct (samples fuel self (Z.to_nat n) g []) as [[data0 g0]| |] eqn:Hs;
    try (intros H; discriminate H).
  rewrite bind_Return. cbv beta iota. intros ?; simplify_eq.
  apply samples_draws in Hs as (draws & Hlen & Hok & Hdata). simpl in Hdata.
  exists draws. split; [done|]. split; [done|]. split; [done|].
  split; [|split; [|split]].
  - subst data. rewrite <- Hlen. apply omap_length_le.
  - intros d ex. apply validate_spec.
  - subst data. apply Forall_forall. intros ex (d & _ & Hacc)%list_elem_of_omap.
    apply validate_spec in Hacc as (Hph & Hne & ->). simpl.
    split; [done|]. split; [by apply sort_by_start_nonempty|apply sort_by_start_sorted].
  - intros Hloc d Hin Htok. eapply empty_location_pool_rejects; [done| |done].
    eapply Forall_forall in Hok; eauto.
Qed.

End Validation.

(** ** Termination of the generator *)

Section Termination.
Implicit Types (token label : str) (names : list str) (g : rng) (es : list span).

Lemma brace_count_app (a b : str) : brace_count (a ++ b) = (brace_count a + brace_count b)%nat.
Proof. unfold brace_count. by rewrite filter_app, length_app. Qed.

Lemma brace_count_0 (v : str) : "{"%char ∉ v → brace_count v = 0%nat.
Proof.
  unfold brace_count. induction v as [|c v IH]; intros Hv; [done|].
  rewrite filter_cons. case_decide as Hc.
  - subst c. exfalso. apply Hv. by left.
  - apply IH. intros Hin. apply Hv. by right.
Qed.

Lemma choice_nonempty {A} (seq : list A) g :
  seq ≠ [] → ∃ x, choice seq g = (Some x, λ n, g (S n)) ∧ x ∈ seq.
Proof.
  intros Hne. unfold choice.
  assert (g O mod length seq < length seq)%nat as Hlt.
  { apply Nat.mod_upper_bound. destruct seq; [done|]. simpl. lia. }
  apply lookup_lt_is_Some_2 in Hlt as [x Hx]. exists x. rewrite Hx.
  split; [done|]. by eapply list_elem_of_lookup_2.
Qed.

(** A pass ends within as many iterations as the text has opening braces,
    when the values of its pool have none. *)
Lemma substitute_kind_terminates fuel token label names g t es :
  (1 ≤ brace_count token)%nat →
  Forall (λ v, "{"%char ∉ v) names →
  (brace_count t ≤ fuel)%nat →
  ∃ t' es' g', substitute_kind fuel token label names g t es = Return (t', es', g')
               ∧ (brace_count t' ≤ brace_count t)%nat.
Proof.
  intros Htok Hnames. revert g t es.
  induction fuel as [|fuel IH]; intros g t es Hfuel.
  - destruct (str_in token t) eqn:Hin.
    + apply search_found in Hin as (pre & post & -> & _).
      rewrite !brace_count_app in Hfuel. lia.
    + rewrite substitute_kind_stop by (by left). eauto 6.
  - rewrite substitute_kind_S.
    destruct (str_in token t && bool_decide (names ≠ [])) eqn:Hc; [|eauto 6].
    apply andb_true_iff in Hc as [Hin Hne]. apply bool_decide_eq_true in Hne.
    destruct (choice_nonempty names g Hne) as (value & -> & Hv).
    destruct (search_found _ _ Hin) as (pre & post & -> & _ & Hfind & Hrep).
    cbv zeta. unfold str_find. rewrite Hfind, Hrep.
    rewrite bool_decide_eq_true_2 by (unfold len; lia).
    assert (brace_count value = 0%nat) as Hv0.
    { apply brace_count_0. eapply Forall_forall in Hnames; eauto. }
    rewrite !brace_count_app in Hfuel.
    edestruct (IH (λ n, g (S n)) (pre ++ value ++ post)) as (t' & es' & g' & -> & Hle).
    { rewrite !brace_count_app. lia. }
    exists t', es', g'. split; [done|].
    rewrite !brace_count_app in Hle |- *. lia.
Qed.

Lemma fill_template_terminates fuel self template g :
  Forall (λ v, "{"%char ∉ v) (person_names self ++ org_names self ++ location_names self) →
  (brace_count template ≤ fuel)%nat →
  ∃ t es g', fill_template fuel self template g = Return (t, es, g').
Proof.
  intros [Hp [Ho Hl]%Forall_app]%Forall_app Hfuel.
  unfold fill_template.
  destruct (substitute_kind_terminates fuel (lit "{PERSON}") (lit "PERSON")
              (person_names self) g template []) as (t1 & e1 & g1 & -> & H1);
    [by vm_compute|done|done|].
  rewrite bind_Return. cbv beta iota.
  destruct (substitute_kind_terminates fuel (lit "{ORG}") (lit "ORG")
              (org_names self) g1 t1 e1) as (t2 & e2 & g2 & -> & H2);
    [by vm_compute|done|lia|].
  rewrite bind_Return. cbv beta iota.
  destruct (substitute_kind_terminates fuel (lit "{LOC}") (lit "LOC")
              (location_names self) g2 t2 e2) as (t3 & e3 & g3 & -> & H3);
    [by vm_compute|done|lia|].
  eauto.
Qed.

Lemma samples_terminate fuel self n g acc :
  Forall (λ v, "{"%char ∉ v) (person_names self ++ org_names self ++ location_names self) →
  Forall (λ t, (brace_count t ≤ fuel)%nat) (context_templates self) →
  context_templates self ≠ [] →
  ∃ data g', samples fuel self n g acc = Return (data, g').
Proof.
  intros Hpools Htemplates Hne. revert g acc.
  induction n as [|n IH]; intros g acc; simpl; [eauto|].
  unfold sample.
  destruct (choice_nonempty (context_templates self) g Hne) as (template & -> & Hin).
  destruct (fill_template_terminates fuel self template (λ n, g (S n)) Hpools)
    as (t & es & g' & ->).
  { eapply Forall_forall in Htemplates; eauto. }
  rewrite bind_Return. cbv beta iota.
  destruct (validate t es); rewrite bind_Return; cbv beta iota; apply IH.
Qed.

(** C10, as amended.  When no value of the three pools holds an opening
    brace, [generate_training_data] ends for every count, every list of
    templates and every sequence of random draws: each iteration of a pass
    takes one opening brace out of the text and brings none in, so no pass
    makes more iterations than the template has opening braces.  The call
    raises at once when there is no template, and returns otherwise. *)
Theorem generation_terminates fuel self n g :
  Forall (λ v, "{"%char ∉ v) (person_names self ++ org_names self ++ location_names self) →
  Forall (λ t, (brace_count t ≤ fuel)%nat) (context_templates self) →
  (context_templates self = [] ∧ ∃ msg, generate_training_data fuel self n g = Raise msg)
  ∨ (∃ data g', generate_training_data fuel self n g
                = Return (data, set_generated_data self data, g')).
Proof.
  intros Hpools Htemplates. unfold generate_training_data.
  case_bool_decide as Ht; [left; eauto|right].
  destruct (samples_terminate fuel self (Z.to_nat n) g [] Hpools Htemplates Ht)
    as (data & g' & ->).
  rewrite bind_Return. eauto.
Qed.

Lemma transparent_nil tok v : transparent tok v [].
Proof. by intros rest. Qed.

Lemma transparent_app tok v a b :
  transparent tok v a → transparent tok v b → transparent tok v (a ++ b).
Proof.
  intros Ha Hb rest. rewrite <- !(assoc_L (++)).
  destruct (Ha (b ++ rest)) as [-> ->]. destruct (Hb rest) as [-> ->]. done.
Qed.

Lemma transparent_SON v : transparent (lit "{PERSON}") v (lit "SON}").
Proof. by intros rest. Qed.

(** From either of two shapes of text the pass for PERSON of the looping
    generator reaches the other one, so that it never ends. *)
Lemma looping_pass fuel :
  ∀ a b g es, transparent (lit "{PERSON}") (lit "SON}SON}{PER{PER") a →
    substitute_kind fuel (lit "{PERSON}") (lit "PERSON") [lit "SON}SON}{PER{PER"] g
      (a ++ lit "{PER{PERSON}" ++ b) es = OutOfFuel
    ∧ substitute_kind fuel (lit "{PERSON}") (lit "PERSON") [lit "SON}SON}{PER{PER"] g
        (a ++ lit "{PERSON}SON}{PER{PER" ++ b) es = OutOfFuel.
Proof.
  induction fuel as [|fuel IH]; intros a b g es Ha.
  - rewrite !substitute_kind_0.
    destruct (Ha (lit "{PER{PERSON}" ++ b)) as [-> _].
    destruct (Ha (lit "{PERSON}SON}{PER{PER" ++ b)) as [-> _].
    by split.
  - split.
    + destruct (Ha (lit "{PER{PERSON}" ++ b)) as [Hin Hrep].
      rewrite substitute_kind_single by (by rewrite Hin). rewrite Hrep.
      by apply (IH a b).
    + destruct (Ha (lit "{PERSON}SON}{PER{PER" ++ b)) as [Hin Hrep].
      rewrite substitute_kind_single by (by rewrite Hin). rewrite Hrep.
      change (a ++ replace_first (lit "{PERSON}") (lit "SON}SON}{PER{PER")
                     (lit "{PERSON}SON}{PER{PER" ++ b))
        with (a ++ (lit "SON}" ++ lit "SON}") ++ lit "{PER{PERSON}" ++ (lit "{PER{PER" ++ b)).
      rewrite (assoc_L (++) a).
      apply IH. apply transparent_app; [done|].
      apply transparent_app; apply transparent_SON.
Qed.

(** C10, as stated, fails: no value of the pools holds a placeholder, and
    the call does not end, however many iterations it is given. *)
Lemma substitution_can_run_forever :
  Forall (λ v, ∀ ph, ph ∈ placeholders → str_in ph v = false)
    (person_names looping_generator ++ org_names looping_generator
     ++ location_names looping_generator)
  ∧ ∀ fuel g, generate_training_data fuel looping_generator 1 g = OutOfFuel.
Proof.
  split.
  - repeat constructor. intros ph Hph. unfold placeholders in Hph.
    repeat (apply elem_of_cons in Hph as [->|Hph]; [by vm_compute|]).
    by apply elem_of_nil in Hph.
  - intros fuel g. unfold generate_training_data, looping_generator.
    cbn [context_templates]. rewrite bool_decide_eq_false_2 by done.
    change (Z.to_nat 1) with 1%nat. cbn [samples]. unfold sample.
    cbn [context_templates]. rewrite choice_single.
    unfold fill_template. cbn [person_names].
    destruct (looping_pass fuel [] [] (λ n, g (S n)) [] (transparent_nil _ _)) as [H _].
    rewrite app_nil_l, app_nil_r in H. rewrite H. reflexivity.
Qed.

End Termination.

(** ** The properties on sample inputs *)

Section Samples.

(** C1 on three calls, the third in placeholder mode *)
Lemma same_key_same_pseudonym_witness :
  let self := TextPseudonymizer_init (λ _, []) in
  let calls := [person_call "Jean Dupont" false; person_call "Marie Curie" false;
                person_call "JEAN DUPONT" true] in
  (∃ p, (resolve_all self calls).1 !! 0%nat = Some p
        ∧ (resolve_all self calls).1 !! 2%nat = Some p
        ∧ correspondences (resolve_all self calls).2
            !! registry_key (lit "PERSONNE") (lit "Jean Dupont") = Some p)
  ∧ dom (correspondences (resolve_all self calls).2)
    = dom (correspondences self) ∪ list_to_set (call_key <$> calls).
Proof.
  intros self calls.
  apply (same_key_same_pseudonym self calls 0 2
           (person_call "Jean Dupont" false) (person_call "JEAN DUPONT" true));
    reflexivity.
Defined.

(** C2 on the scenario of the specification *)
Lemma offset_integrity_witness :
  let self := TextPseudonymizer_init (λ _, scenario_ents) in
  let st := rewrite_ents default_config self scenario_text scenario_ents in
  let ms := masked self default_config scenario_ents in
  len (rw_text st) = len scenario_text + sum_deltas (rw_entities st)
  ∧ length (rw_entities st) = length ms
  ∧ ∀ i e r, ms !! i = Some e → rw_entities st !! i = Some r →
      let p := start_char e + sum_deltas (take i (rw_entities st)) in
      original r = text_ e
      ∧ slice (rw_text st) p (p + len (replacement r)) = replacement r.
Proof.
  intros self.
  apply (offset_integrity self default_config scenario_text scenario_ents).
  by vm_compute.
Defined.

(** C5 on the template of the coverage example *)
Lemma kinds_in_fixed_order_witness :
  ∃ t1 e1 t2 e2,
    kind_pass (lit "{PERSON}") (lit "PERSON") (person_names coverage_generator)
      (lit "{PERSON} travaille chez {ORG} depuis janvier.") [] t1 e1
    ∧ kind_pass (lit "{ORG}") (lit "ORG") (org_names coverage_generator) t1 e1 t2 e2
    ∧ kind_pass (lit "{LOC}") (lit "LOC") (location_names coverage_generator) t2 e2
        (lit "Jean Dupont travaille chez Microsoft depuis janvier.")
        [(0, 11, lit "PERSON"); (27, 36, lit "ORG")]
    ∧ e1 `prefix_of` e2
    ∧ e2 `prefix_of` [(0, 11, lit "PERSON"); (27, 36, lit "ORG")].
Proof.
  apply (kinds_in_fixed_order 2 coverage_generator
           (lit "{PERSON} travaille chez {ORG} depuis janvier.") (λ _, O)
           (lit "Jean Dupont travaille chez Microsoft depuis janvier.")
           [(0, 11, lit "PERSON"); (27, 36, lit "ORG")] (λ _, O)).
  vm_compute. reflexivity.
Defined.

(** C7 on one sample of the coverage example *)
Lemma validation_keeps_complete_examples_witness :
  let data := [(lit "Jean Dupont travaille chez Microsoft depuis janvier.",
                [(0, 11, lit "PERSON"); (27, 36, lit "ORG")])] in
  ∃ draws,
    length draws = Z.to_nat 1
    ∧ Forall (draw_ok 2 coverage_generator) draws
    ∧ data = omap accepted draws
    ∧ (length data ≤ Z.to_nat 1)%nat
    ∧ (∀ d ex, accepted d = Some ex
         ↔ (∀ ph, ph ∈ placeholders → str_in ph (draw_text d) = false)
           ∧ draw_entities d ≠ []
           ∧ ex = (draw_text d, sort_by_start (draw_entities d)))
    ∧ Forall (λ ex, (∀ ph, ph ∈ placeholders → str_in ph ex.1 = false)
                    ∧ ex.2 ≠ [] ∧ Sorted le_start ex.2) data
    ∧ (location_names coverage_generator = [] →
       ∀ d, d ∈ draws → str_in (lit "{LOC}") (draw_template d) = true →
            accepted d = None).
Proof.
  intros data.
  apply (validation_keeps_complete_examples 2 coverage_generator 1 (λ _, O) data
           (set_generated_data coverage_generator data) (λ _, O)).
  vm_compute. reflexivity.
Defined.

(** C10 on three samples of the coverage example *)
Lemma generation_terminates_witness :
  (context_templates coverage_generator = []
   ∧ ∃ msg, generate_training_data 2 coverage_generator 3 (λ _, O) = Raise msg)
  ∨ (∃ data g', generate_training_data 2 coverage_generator 3 (λ _, O)
                = Return (data, set_generated_data coverage_generator data, g')).
Proof.
  apply (generation_terminates 2 coverage_generator 3 (λ _, O)).
  - repeat constructor; intros H%(bool_decide_pack _); by vm_compute in H.
  - repeat constructor.
Defined.

End Samples.

(** * Further properties of the pseudonymizer *)

Section RegistryGrowth.
Implicit Types (self : TextPseudonymizer) (config : PseudonymizationConfig).

Lemma fresh_replacement_counter self t ty config k :
  kind_counter k self ≤ kind_counter k (fresh_replacement self t ty config).2
  ≤ kind_counter k self + 1.
Proof.
  unfold fresh_replacement.
  repeat (case_match; [destruct k; cbn; lia|]). destruct k; cbn; lia.
Qed.

Lemma resolve_counter self t ty config k :
  kind_counter k self ≤ kind_counter k (_generate_consistent_replacement self t ty config).2
  ≤ kind_counter k self + 1.
Proof.
  destruct (correspondences self !! registry_key ty t) as [v|] eqn:E.
  - rewrite (resolve_hit _ _ _ _ _ E). cbn [snd]. lia.
  - rewrite (resolve_miss _ _ _ _ E). cbn [snd].
    pose proof (fresh_replacement_counter self t ty config k) as H.
    destruct k; cbn in *; lia.
Qed.

Lemma resolve_size self t ty config :
  (size (correspondences (_generate_consistent_replacement self t ty config).2)
   ≤ S (size (correspondences self)))%nat.
Proof.
  destruct (correspondences self !! registry_key ty t) as [v|] eqn:E.
  - rewrite (resolve_hit _ _ _ _ _ E). cbn [snd]. lia.
  - rewrite (resolve_miss _ _ _ _ E). cbn [snd set_correspondences correspondences].
    by rewrite map_size_insert_None.
Qed.

Lemma resolve_fixed_fields self t ty config :
  let self' := (_generate_consistent_replacement self t ty config).2 in
  nlp self' = nlp self ∧ email_pattern self' = email_pattern self
  ∧ phone_pattern self' = phone_pattern self.
Proof.
  unfold _generate_consistent_replacement.
  destruct (correspondences self !! registry_key ty t); [done|].
  unfold fresh_replacement. repeat (case_match; simplify_eq; try done).
Qed.

(** X1.  In a registry lifetime no entry is changed or removed, at most one
    entry is added per call, and no counter goes down; a counter goes up by
    at most one per call. *)
Theorem registry_only_grows self calls :
  let self' := (resolve_all self calls).2 in
  correspondences self ⊆ correspondences self'
  ∧ (size (correspondences self') ≤ size (correspondences self) + length calls)%nat
  ∧ ∀ k, kind_counter k self ≤ kind_counter k self'
         ≤ kind_counter k self + Z.of_nat (length calls).
Proof.
  cbv zeta. split; [|split].
  - apply map_subseteq_spec. intros key v. apply resolve_all_preserves.
  - revert self. induction calls as [|c calls IH]; intros self; [simpl; lia|].
    rewrite resolve_all_cons. cbn [snd length]. etrans; [apply IH|].
    pose proof (resolve_size self (call_text c) (call_type c) (call_config c)). lia.
  - intros k. revert self. induction calls as [|c calls IH]; intros self; [simpl; lia|].
    rewrite resolve_all_cons. cbn [snd length].
    pose proof (resolve_counter self (call_text c) (call_type c) (call_config c) k).
    specialize (IH (_generate_consistent_replacement self (call_text c) (call_type c)
                      (call_config c)).2). lia.
Qed.

End RegistryGrowth.

Section Lifetime.
Implicit Types (self : TextPseudonymizer) (config : PseudonymizationConfig)
               (st : RewriteState) (ents : list Ent).

Lemma resolve_all_app self calls1 calls2 :
  resolve_all self (calls1 ++ calls2)
  = ((resolve_all self calls1).1 ++ (resolve_all (resolve_all self calls1).2 calls2).1,
     (resolve_all (resolve_all self calls1).2 calls2).2).
Proof.
  revert self. induction calls1 as [|c calls1 IH]; intros self.
  - simpl. by destruct (resolve_all self calls2).
  - rewrite <- app_comm_cons, !resolve_all_cons. cbv zeta. cbn [fst snd]. by rewrite IH.
Qed.

Lemma resolve_all_fixed_fields self calls :
  let self' := (resolve_all self calls).2 in
  nlp self' = nlp self ∧ email_pattern self' = email_pattern self
  ∧ phone_pattern self' = phone_pattern self ∧ entity_mapping self' = entity_mapping self.
Proof.
  cbv zeta. revert self. induction calls as [|c calls IH]; intros self; [done|].
  rewrite resolve_all_cons. cbn [snd].
  destruct (IH (_generate_consistent_replacement self (call_text c) (call_type c)
                  (call_config c)).2) as (-> & -> & -> & ->).
  destruct (resolve_fixed_fields self (call_text c) (call_type c) (call_config c))
    as (-> & -> & ->).
  by rewrite resolve_entity_mapping.
Qed.

(** The loop over the entities resolves the masked entities in order. *)
Lemma rewrite_fold_lifetime self config ents st :
  entity_mapping (rw_self st) = entity_mapping self →
  let r := resolve_all (rw_self st) (entity_calls self config ents) in
  rw_self (fold_left (rewrite_step config) ents st) = r.2
  ∧ replacement <$> rw_entities (fold_left (rewrite_step config) ents st)
    = (replacement <$> rw_entities st) ++ r.1.
Proof.
  cbv zeta. revert st. induction ents as [|e ents IH]; intros st Hmap.
  - simpl. by rewrite app_nil_r.
  - unfold entity_calls, masked in *. cbn [fold_left]. rewrite filter_cons.
    assert (mapped_type (rw_self st) e = mapped_type self e) as Hty.
    { unfold mapped_type. by rewrite Hmap. }
    unfold rewrite_step at 2 4. rewrite Hty.
    destruct (decide (should_mask (mapped_type self e) config = true)) as [Hm|Hm].
    + rewrite Hm, fmap_cons, resolve_all_cons. cbn [call_text call_type call_config].
      pose proof (resolve_entity_mapping (rw_self st) (text_ e) (mapped_type self e) config)
        as Hm'.
      destruct (_generate_consistent_replacement _ _ _ _) as [repl self1].
      cbn [fst snd] in *.
      destruct (IH {| rw_self := self1;
                      rw_text := slice_to (rw_text st) (start_char e + rw_offset st) ++ repl
                                 ++ slice_from (rw_text st) (end_char e + rw_offset st);
                      rw_offset := rw_offset st + (len repl - len (text_ e));
                      rw_entities := rw_entities st ++
                        [{| original := text_ e; replacement := repl;
                            type_ := mapped_type self e;
                            position := fmt_int (start_char e) ++ lit "-"
                                        ++ fmt_int (end_char e) |}] |})
        as [-> ->]; [by rewrite <- Hmap|].
      cbn [rw_self rw_entities]. split; [done|].
      rewrite fmap_app. cbn. by rewrite <- (assoc_L (++)).
    + apply not_true_is_false in Hm. rewrite Hm. by apply IH.
Qed.

Lemma pseudonymize_lifetime self text (config : option PseudonymizationConfig) :
  let cfg := default default_config config in
  let st := rewrite_ents cfg self text (nlp self text) in
  let calls1 := entity_calls self cfg (nlp self text) in
  let emails := matches_if (mask_emails cfg) (email_pattern self) (rw_text st) in
  let calls2 := match_calls (lit "EMAIL") cfg emails.1 in
  let text1 := weave emails.1 (resolve_all (rw_self st) calls2).1 ++ emails.2 in
  let phones := matches_if (mask_phones cfg) (phone_pattern self) text1 in
  let calls3 := match_calls (lit "TELEPHONE") cfg phones.1 in
  let res := pseudonymize self text config in
  res.2 = (resolve_all self (calls1 ++ calls2 ++ calls3)).2
  ∧ replacement <$> entities res.1 = (resolve_all self calls1).1
  ∧ result_correspondences res.1 = correspondences res.2.
Proof.
  intros cfg st calls1 emails calls2 text1 phones calls3 res.
  destruct (rewrite_fold_lifetime self cfg (nlp self text)
              {| rw_self := self; rw_text := text; rw_offset := 0; rw_entities := [] |}
              eq_refl) as [Hself Hlog].
  fold (rewrite_ents cfg self text (nlp self text)) in Hself, Hlog. fold st in Hself, Hlog.
  cbn [rw_self rw_entities] in Hself, Hlog. fold calls1 in Hself, Hlog.
  destruct (resolve_all_fixed_fields self calls1) as (_ & He & Hp & _).
  rewrite <- Hself in He, Hp.
  assert (res = ({| original_text := text;
                    pseudonymized_text :=
                      weave phones.1 (resolve_all (resolve_all (rw_self st) calls2).2
                                        calls3).1 ++ phones.2;
                    entities := rw_entities st;
                    result_correspondences :=
                      correspondences (resolve_all (resolve_all (rw_self st) calls2).2
                                         calls3).2 |},
                 (resolve_all (resolve_all (rw_self st) calls2).2 calls3).2)) as ->.
  { subst res. unfold pseudonymize, pseudonymize_with. fold cfg. fold st.
    unfold _pseudonymize_regex_patterns.
    rewrite (re_sub_resolve_all (rw_self st) (lit "EMAIL") cfg (mask_emails cfg)).
    cbv beta iota zeta. rewrite He. fold emails. fold calls2. fold text1.
    rewrite (re_sub_resolve_all _ (lit "TELEPHONE") cfg (mask_phones cfg)).
    cbv beta iota zeta.
    destruct (resolve_all_fixed_fields (rw_self st) calls2) as (_ & _ & -> & _).
    rewrite Hp. fold phones. fold calls3. reflexivity. }
  cbn [fst snd entities result_correspondences]. split; [|split; [|done]].
  - rewrite !resolve_all_app. cbn [fst snd]. by rewrite <- Hself.
  - by rewrite Hlog.
Qed.

(** X2.  A call of [pseudonymize] is one stretch of a registry lifetime: the
    object it leaves is the object after the resolver was called for the
    masked entities in the order of [doc.ents], then for the matches of the
    email pattern, then for the matches of the phone pattern; the
    replacements of the log are the results of the first of these calls, and
    the table in the result is the registry of that object. *)
Theorem pseudonymize_is_a_lifetime self text (config : option PseudonymizationConfig) :
  let cfg := default default_config config in
  let st := rewrite_ents cfg self text (nlp self text) in
  let calls1 := entity_calls self cfg (nlp self text) in
  let emails := matches_if (mask_emails cfg) (email_pattern self) (rw_text st) in
  let calls2 := match_calls (lit "EMAIL") cfg emails.1 in
  let text1 := weave emails.1 (resolve_all (rw_self st) calls2).1 ++ emails.2 in
  let phones := matches_if (mask_phones cfg) (phone_pattern self) text1 in
  let calls3 := match_calls (lit "TELEPHONE") cfg phones.1 in
  let res := pseudonymize self text config in
  res.2 = (resolve_all self (calls1 ++ calls2 ++ calls3)).2
  ∧ replacement <$> entities res.1 = (resolve_all self calls1).1
  ∧ result_correspondences res.1 = correspondences res.2.
Proof. apply pseudonymize_lifetime. Qed.

End Lifetime.

Section Table.
Implicit Types (self : TextPseudonymizer) (config : PseudonymizationConfig) (k : kind).

Lemma should_mask_kind ty config : should_mask ty config = true → ∃ k, ty = kind_name k.
Proof.
  unfold should_mask.
  destruct (bool_decide (ty = lit "PERSONNE")) eqn:E1;
    [apply bool_decide_eq_true in E1; intros _; by exists Person|].
  destruct (bool_decide (ty = lit "ORGANISATION")) eqn:E2;
    [apply bool_decide_eq_true in E2; intros _; by exists Organisation|].
  destruct (bool_decide (ty = lit "LIEU")) eqn:E3;
    [apply bool_decide_eq_true in E3; intros _; by exists Lieu|].
  destruct (bool_decide (ty = lit "DATE")) eqn:E4;
    [apply bool_decide_eq_true in E4; intros _; by exists Date|].
  done.
Qed.

Lemma entity_calls_consistent self config ents :
  use_placeholders config = false → Forall consistent_call (entity_calls self config ents).
Proof.
  intros Hc. unfold entity_calls. apply Forall_fmap, Forall_forall.
  intros e [Hm _]%list_elem_of_filter. split; [done|]. by eapply should_mask_kind.
Qed.

Lemma match_calls_consistent k config pieces :
  use_placeholders config = false →
  Forall consistent_call (match_calls (kind_name k) config pieces).
Proof.
  intros Hc. unfold match_calls. apply Forall_fmap, Forall_forall.
  intros p _. split; [done|]. by exists k.
Qed.

(** The calls that [pseudonymize] makes in consistent mode are calls for the
    six kinds. *)
Lemma pseudonymize_calls_consistent self config ents pieces1 pieces2 :
  use_placeholders config = false →
  Forall consistent_call (entity_calls self config ents
                          ++ match_calls (lit "EMAIL") config pieces1
                          ++ match_calls (lit "TELEPHONE") config pieces2).
Proof.
  intros Hc. repeat apply Forall_app_2.
  - by apply entity_calls_consistent.
  - by apply (match_calls_consistent Email).
  - by apply (match_calls_consistent Telephone).
Qed.

Lemma kind_pseudonym_kind k1 k2 n m : kind_pseudonym k1 n = kind_pseudonym k2 m → k1 = k2.
Proof. destruct k1, k2; cbn; intros H; try discriminate H; reflexivity. Qed.

Lemma registry_kinds_init model : registry_kinds (TextPseudonymizer_init model).
Proof. intros key v. cbn [correspondences TextPseudonymizer_init]. by rewrite lookup_empty. Qed.

Lemma registry_kinds_step self t k config :
  use_placeholders config = false →
  registry_kinds self →
  registry_kinds (_generate_consistent_replacement self t (kind_name k) config).2.
Proof.
  intros Hc Hk.
  destruct (correspondences self !! registry_key (kind_name k) t) as [w|] eqn:E.
  { by rewrite (resolve_hit _ _ _ _ _ E). }
  rewrite (resolve_miss _ _ _ _ E), (fresh_replacement_kind _ _ _ _ Hc).
  intros key v. cbn [fst snd correspondences set_correspondences].
  destruct (decide (registry_key (kind_name k) t = key)) as [<-|Hne].
  - rewrite lookup_insert_eq. intros ?; simplify_eq. unfold registry_key. eauto.
  - rewrite lookup_insert_ne by done. apply Hk.
Qed.

Lemma registry_kinds_resolve_all self calls :
  Forall consistent_call calls → registry_kinds self →
  registry_kinds (resolve_all self calls).2.
Proof.
  intros Hcalls. revert self.
  induction Hcalls as [|c calls [Hc [k Hk]] _ IH]; intros self Hinv; [done|].
  rewrite resolve_all_cons. cbn [snd]. apply IH. rewrite Hk.
  by apply registry_kinds_step.
Qed.

(** A registry that was filled in consistent mode for the six kinds holds
    each pseudonym once. *)
Lemma registry_injective self key1 key2 v :
  registry_inv self → registry_kinds self →
  correspondences self !! key1 = Some v →
  correspondences self !! key2 = Some v →
  key1 = key2.
Proof.
  intros [_ Hinj] Hk H1 H2.
  destruct (Hk _ _ H1) as (k1 & l1 & n1 & -> & Hv1).
  destruct (Hk _ _ H2) as (k2 & l2 & n2 & -> & Hv2).
  assert (k1 = k2) as <- by (eapply kind_pseudonym_kind; by rewrite <- Hv1, <- Hv2).
  f_equal. f_equal. by eapply Hinj.
Qed.

(** X3.  In consistent mode the table of correspondences that
    [pseudonymize] returns for a new object can be read backwards: no two of
    its keys hold the same pseudonym. *)
Theorem correspondence_table_injective model text (config : option PseudonymizationConfig)
    key1 key2 v :
  use_placeholders (default default_config config) = false →
  let table := result_correspondences
                 (pseudonymize (TextPseudonymizer_init model) text config).1 in
  table !! key1 = Some v → table !! key2 = Some v → key1 = key2.
Proof.
  intros Hc table. subst table.
  destruct (pseudonymize_lifetime (TextPseudonymizer_init model) text config)
    as (Hself & _ & ->).
  rewrite Hself. apply registry_injective.
  - apply registry_inv_resolve_all; [|apply registry_inv_init].
    by apply pseudonymize_calls_consistent.
  - apply registry_kinds_resolve_all; [|apply registry_kinds_init].
    by apply pseudonymize_calls_consistent.
Qed.

Lemma registry_numbered_init model : registry_numbered (TextPseudonymizer_init model).
Proof.
  split; [by intros []|]. split.
  - intros k l v. cbn [correspondences TextPseudonymizer_init]. by rewrite lookup_empty.
  - intros k n. destruct k; cbn; lia.
Qed.

Lemma registry_numbered_step self t k config :
  use_placeholders config = false →
  registry_numbered self →
  registry_numbered (_generate_consistent_replacement self t (kind_name k) config).2.
Proof.
  intros Hc (Hpos & Hused & Hdense).
  destruct (correspondences self !! registry_key (kind_name k) t) as [w|] eqn:E.
  { by rewrite (resolve_hit _ _ _ _ _ E). }
  rewrite (resolve_miss _ _ _ _ E), (fresh_replacement_kind _ _ _ _ Hc).
  cbn [fst snd].
  set (m' := <[registry_key (kind_name k) t := kind_pseudonym k (kind_counter k self)]>
               (correspondences self)).
  assert (∀ k', kind_counter k' (set_correspondences (bump k self) m')
                = if decide (k' = k) then kind_counter k' self + 1
                  else kind_counter k' self) as Hcnt.
  { intros k'. rewrite <- bump_counter. by destruct k'. }
  unfold registry_numbered. cbn [correspondences set_correspondences].
  subst m'. unfold registry_key in *.
  split; [|split].
  - intros k'. rewrite Hcnt. specialize (Hpos k'). case_decide; lia.
  - intros k' l v Hl. rewrite Hcnt.
    destruct (decide (kind_name k ++ lit "_" ++ lower t = kind_name k' ++ lit "_" ++ l))
      as [Heq|Hne].
    + rewrite <- Heq, lookup_insert_eq in Hl. injection Hl as <-.
      apply kind_key_inj in Heq as [<- _]. exists (kind_counter k self).
      rewrite decide_True by done. specialize (Hpos k). split; [done|lia].
    + rewrite lookup_insert_ne in Hl by done.
      destruct (Hused _ _ _ Hl) as (n & -> & Hn). exists n. split; [done|].
      case_decide; lia.
  - intros k' n Hn. rewrite Hcnt in Hn.
    destruct (decide (k' = k ∧ n = kind_counter k self)) as [[-> ->]|Hold].
    + exists (lower t). by rewrite lookup_insert_eq.
    + destruct (Hdense k' n) as [l Hl].
      { case_decide; [|lia]. subst k'. destruct (decide (n = kind_counter k self)); [|lia].
        exfalso. by apply Hold. }
      exists l. rewrite lookup_insert_ne; [done|]. intros Heq. rewrite <- Heq in Hl. congruence.
Qed.

Lemma registry_numbered_resolve_all self calls :
  Forall consistent_call calls → registry_numbered self →
  registry_numbered (resolve_all self calls).2.
Proof.
  intros Hcalls. revert self.
  induction Hcalls as [|c calls [Hc [k Hk]] _ IH]; intros self Hinv; [done|].
  rewrite resolve_all_cons. cbn [snd]. apply IH. rewrite Hk.
  by apply registry_numbered_step.
Qed.

(** X4.  In a registry lifetime that starts with a new object and is in
    consistent mode for the six types that have a counter, the counter of a
    type numbers its entries 1, 2, 3, ... without gaps: a number is below the
    counter exactly when the pseudonym of that number is in the registry
    for some original of the type. *)
Theorem counters_number_without_gaps model calls k n :
  Forall consistent_call calls →
  let self' := (resolve_all (TextPseudonymizer_init model) calls).2 in
  1 ≤ n < kind_counter k self'
  ↔ ∃ l, correspondences self' !! (kind_name k ++ lit "_" ++ l) = Some (kind_pseudonym k n).
Proof.
  intros Hcalls self'.
  destruct (registry_numbered_resolve_all _ _ Hcalls (registry_numbered_init model))
    as (_ & Hused & Hdense).
  split; [apply Hdense|].
  intros [l Hl]. destruct (Hused _ _ _ Hl) as (n' & Hn' & Hb).
  by apply kind_pseudonym_inj in Hn' as ->.
Qed.

End Table.

Section Options.
Implicit Types (self : TextPseudonymizer) (st : RewriteState) (ents : list Ent).

Lemma resolve_kind_config self t k (c1 c2 : PseudonymizationConfig) :
  use_placeholders c1 = use_placeholders c2 →
  _generate_consistent_replacement self t (kind_name k) c1
  = _generate_consistent_replacement self t (kind_name k) c2.
Proof.
  intros Hc. unfold _generate_consistent_replacement.
  destruct (correspondences self !! registry_key (kind_name k) t); [done|].
  destruct (use_placeholders c1) eqn:E1.
  - unfold fresh_replacement. by rewrite E1, <- Hc.
  - rewrite !fresh_replacement_kind by congruence. done.
Qed.

Lemma should_mask_same (c1 c2 : PseudonymizationConfig) ty :
  same_masks c1 c2 → should_mask ty c1 = should_mask ty c2.
Proof. intros (H1 & H2 & H3 & H4 & _). unfold should_mask. by rewrite H1, H2, H3, H4. Qed.

Lemma rewrite_step_same (c1 c2 : PseudonymizationConfig) st e :
  same_masks c1 c2 → rewrite_step c1 st e = rewrite_step c2 st e.
Proof.
  intros Hs. unfold rewrite_step. rewrite (should_mask_same c1 c2 _ Hs).
  destruct (should_mask (mapped_type (rw_self st) e) c2) eqn:Hm; [|done].
  apply should_mask_kind in Hm as [k ->].
  rewrite (resolve_kind_config _ _ k c1 c2); [done|]. apply Hs.
Qed.

Lemma match_calls_same self k (c1 c2 : PseudonymizationConfig) pieces :
  use_placeholders c1 = use_placeholders c2 →
  resolve_all self (match_calls (kind_name k) c1 pieces)
  = resolve_all self (match_calls (kind_name k) c2 pieces).
Proof.
  intros Hc. revert self. induction pieces as [|p ps IH]; intros self; [done|].
  unfold match_calls in *. rewrite !fmap_cons, !resolve_all_cons.
  cbn [call_text call_type call_config]. cbv zeta.
  rewrite (resolve_kind_config _ _ k c1 c2 Hc). by rewrite IH.
Qed.

(** X5.  [replacement_char] and [preserve_length] have no effect on
    [pseudonymize]: the resolver is only ever called for the six types that
    have a counter, so its fallback for other types is never reached. *)
Theorem fallback_options_unused self text (c1 c2 : PseudonymizationConfig) :
  same_masks c1 c2 →
  pseudonymize self text (Some c1) = pseudonymize self text (Some c2).
Proof.
  intros Hs. unfold pseudonymize.
  change (default default_config (Some c1)) with c1.
  change (default default_config (Some c2)) with c2.
  cbv zeta. unfold pseudonymize_with.
  assert (rewrite_ents c1 self text (nlp self text)
          = rewrite_ents c2 self text (nlp self text)) as ->.
  { unfold rewrite_ents.
    generalize {| rw_self := self; rw_text := text; rw_offset := 0; rw_entities := [] |}.
    induction (nlp self text) as [|e ents IH]; intros st; [done|].
    cbn [fold_left]. by rewrite (rewrite_step_same c1 c2 st e Hs), IH. }
  set (st := rewrite_ents c2 self text (nlp self text)).
  assert (_pseudonymize_regex_patterns (rw_self st) (rw_text st) c1
          = _pseudonymize_regex_patterns (rw_self st) (rw_text st) c2) as ->; [|done].
  destruct Hs as (_ & _ & _ & _ & He & Hp & Hu).
  unfold _pseudonymize_regex_patterns.
  rewrite (re_sub_resolve_all (rw_self st) (lit "EMAIL") c1 (mask_emails c1)).
  rewrite (re_sub_resolve_all (rw_self st) (lit "EMAIL") c2 (mask_emails c2)).
  cbv beta iota zeta. rewrite He, (match_calls_same _ Email c1 c2 _ Hu).
  rewrite (re_sub_resolve_all _ (lit "TELEPHONE") c1 (mask_phones c1)).
  rewrite (re_sub_resolve_all _ (lit "TELEPHONE") c2 (mask_phones c2)).
  cbv beta iota zeta. by rewrite Hp, (match_calls_same _ Telephone c1 c2 _ Hu).
Qed.

Lemma rewrite_nothing_masked config self text ents :
  masked self config ents = [] →
  rewrite_ents config self text ents
  = {| rw_self := self; rw_text := text; rw_offset := 0; rw_entities := [] |}.
Proof.
  unfold rewrite_ents, masked.
  assert (∀ st, entity_mapping (rw_self st) = entity_mapping self →
            filter (λ e, should_mask (mapped_type self e) config = true) ents = [] →
            fold_left (rewrite_step config) ents st = st) as H; [|by apply H].
  induction ents as [|e ents IH]; intros st Hmap Hf; [done|].
  rewrite filter_cons in Hf. case_decide as Hm; [done|].
  cbn [fold_left]. rewrite rewrite_step_skip; [by apply IH|].
  apply not_true_is_false. unfold mapped_type in *. by rewrite Hmap.
Qed.

Lemma matches_if_none (enabled : bool) r text :
  (matches_if enabled r text).1 = [] → (matches_if enabled r text).2 = text.
Proof.
  unfold matches_if. destruct enabled; [|done]. intros H.
  pose proof (rx_split_text r (S (length text)) None text ltac:(lia)) as Ht.
  by rewrite H in Ht.
Qed.

(** X6.  When no entity of [doc.ents] is of a masked type and neither
    pattern, where it is enabled, matches, [pseudonymize] returns the text as
    it is, with an empty log, and leaves the registry and the counters
    alone. *)
Theorem nothing_to_mask self text (config : option PseudonymizationConfig) :
  let cfg := default default_config config in
  masked self cfg (nlp self text) = [] →
  (matches_if (mask_emails cfg) (email_pattern self) text).1 = [] →
  (matches_if (mask_phones cfg) (phone_pattern self) text).1 = [] →
  pseudonymize self text config
  = ({| original_text := text; pseudonymized_text := text; entities := [];
        result_correspondences := correspondences self |}, self).
Proof.
  intros cfg Hm He Hp. unfold pseudonymize, pseudonymize_with. fold cfg.
  rewrite (rewrite_nothing_masked cfg self text _ Hm). cbn [rw_self rw_text rw_entities].
  unfold _pseudonymize_regex_patterns.
  rewrite (re_sub_resolve_all self (lit "EMAIL") cfg (mask_emails cfg)).
  cbv beta iota zeta. rewrite He, (matches_if_none _ _ _ He). cbn [match_calls fmap list_fmap
    resolve_all weave fst snd app].
  rewrite (re_sub_resolve_all self (lit "TELEPHONE") cfg (mask_phones cfg)).
  cbv beta iota zeta. rewrite Hp, (matches_if_none _ _ _ Hp). reflexivity.
Qed.

End Options.

Section Gaps.
Implicit Types (self : TextPseudonymizer) (config : PseudonymizationConfig)
               (st : RewriteState) (ents : list Ent).

Lemma slice_from_in_range (s : str) (i : Z) :
  0 ≤ i ≤ len s → slice_from s i = drop (Z.to_nat i) s.
Proof. unfold len, slice_from. intros H. by rewrite slice_index_in_range. Qed.

(** The loop leaves the text between the spans, before the first and after
    the last one as it is in the source. *)
Lemma rewrite_fold_spliced self config text ents done lo st :
  rewrite_inv self text done lo st →
  ordered_spans lo (len text) (masked self config ents) →
  let st' := fold_left (rewrite_step config) ents st in
  rw_text st'
  = take (Z.to_nat (lo + rw_offset st)) (rw_text st)
    ++ spliced text lo (masked self config ents)
         (drop (length done) (replacement <$> rw_entities st')).
Proof.
  cbv zeta. revert done lo st. induction ents as [|e ents IH]; intros done lo st Hinv Hord.
  - destruct Hinv as [Hmap Hoff Hlen Hlo Hadj Hrest Hll Hlog].
    cbn [fold_left]. change (masked self config []) with (@nil Ent). cbn [spliced].
    rewrite slice_from_in_range by done.
    by rewrite <- Hrest, take_drop.
  - unfold masked in *. cbn [fold_left]. rewrite filter_cons in Hord |- *.
    destruct (decide (should_mask (mapped_type self e) config = true)) as [Hm|Hm].
    + cbn [ordered_spans] in Hord. destruct Hord as (H1 & H2 & H3 & H4 & Hord).
      pose proof (rewrite_inv_step self config text done lo st e Hinv Hm H1 H2 H3 H4) as Hinv1.
      rewrite (IH (done ++ [e]) (end_char e) (rewrite_step config st e) Hinv1 Hord).
      destruct (rewrite_fold_lifetime self config ents (rewrite_step config st e)
                  (inv_mapping _ _ _ _ _ Hinv1)) as [_ Hlogs].
      rewrite Hlogs. clear IH Hlogs.
      pose proof (inv_log_length _ _ _ _ _ Hinv1) as Hll1.
      destruct Hinv as [Hmap Hoff Hlen Hlo Hadj Hrest Hll Hlog].
      revert Hinv1 Hll1. unfold rewrite_step.
      assert (mapped_type (rw_self st) e = mapped_type self e) as ->.
      { unfold mapped_type. by rewrite Hmap. }
      rewrite Hm.
      destruct (_generate_consistent_replacement _ _ _ _) as [repl self1].
      cbn [rw_self rw_text rw_offset rw_entities]. intros Hinv1 Hll1.
      unfold len in *.
      rewrite fmap_app. cbn [fmap list_fmap replacement].
      set (logged := replacement <$> rw_entities st).
      set (later := (resolve_all self1 (entity_calls self config ents)).1).
      assert (length logged = length done) as Hlogged
        by (subst logged; by rewrite length_fmap).
      replace (drop (length (done ++ [e])) ((logged ++ [repl]) ++ later)) with later
        by (rewrite drop_app_length'; [done|rewrite !length_app; simpl; lia]).
      replace (drop (length done) ((logged ++ [repl]) ++ later)) with (repl :: later)
        by (by rewrite <- (assoc_L (++)), drop_app_length').
      cbn [spliced].
      unfold slice_to, slice_from.
      rewrite !slice_index_in_range by lia.
      set (a := Z.to_nat (start_char e + rw_offset st)).
      replace (Z.to_nat (end_char e + (rw_offset st
                 + (Z.of_nat (length repl) - Z.of_nat (length (text_ e))))))
        with (a + length repl)%nat by lia.
      rewrite (assoc_L (++) (take a (rw_text st)) repl), take_app_length'
        by (rewrite length_app, length_take; lia).
      assert (take a (rw_text st)
              = take (Z.to_nat (lo + rw_offset st)) (rw_text st)
                ++ slice text lo (start_char e)) as ->.
      { rewrite slice_in_range by (unfold len; lia).
        replace a with (Z.to_nat (lo + rw_offset st) + Z.to_nat (start_char e - lo))%nat
          by lia.
        by rewrite <- take_take_drop, Hrest. }
      by rewrite <- !(assoc_L (++)).
    + apply not_true_is_false in Hm.
      rewrite rewrite_step_skip; [by apply IH|].
      unfold mapped_type in *. by rewrite (inv_mapping _ _ _ _ _ Hinv).
Qed.

(** X7.  When the masked entities come in ascending order, inside the text
    and without overlap, the text after the loop over the entities is the
    source text with each masked span replaced by the replacement logged for
    it: what lies before, between and after the spans is unchanged. *)
Theorem text_between_spans_unchanged self config text ents :
  let st := rewrite_ents config self text ents in
  ordered_spans 0 (len text) (masked self config ents) →
  rw_text st
  = spliced text 0 (masked self config ents) (replacement <$> rw_entities st).
Proof.
  intros st Hord.
  pose proof (rewrite_fold_spliced self config text ents [] 0 _
                (rewrite_inv_init self text) Hord) as H.
  cbv zeta in H. fold (rewrite_ents config self text ents) in H. fold st in H.
  cbn [rw_offset rw_text length] in H. by rewrite drop_0 in H.
Qed.

End Gaps.

(** * Further properties of the generator *)

Section Loading.
Implicit Types (self : DataGenerator) (s x : str) (lines : list str).

Lemma lstrip_head s c : head (lstrip s) = Some c → is_space c = false.
Proof.
  induction s as [|a s IH]; simpl; [done|].
  destruct (is_space a) eqn:E; [done|]. simpl. intros ?; by simplify_eq.
Qed.

Lemma lstrip_suffix s : lstrip s `suffix_of` s.
Proof.
  induction s as [|a s IH]; simpl; [done|].
  destruct (is_space a); [by apply suffix_cons_r|done].
Qed.

Lemma last_suffix (l1 l2 : str) : l1 `suffix_of` l2 → l1 ≠ [] → last l1 = last l2.
Proof.
  intros [k ->] Hne. rewrite last_app.
  destruct (last l1) eqn:E; [done|]. by apply last_None in E.
Qed.

(** What [strip] leaves, if anything, neither begins nor ends with
    whitespace. *)
Lemma strip_trimmed s : strip s ≠ [] → trimmed (strip s).
Proof.
  unfold strip, rstrip. intros Hne. split; [done|].
  assert (lstrip (reverse (lstrip s)) ≠ []) as Hne'.
  { intros E. by rewrite E in Hne. }
  split; intros c.
  - rewrite head_reverse, (last_suffix _ _ (lstrip_suffix _) Hne'), last_reverse.
    apply lstrip_head.
  - rewrite last_reverse. apply lstrip_head.
Qed.

Lemma stripped_lines_trimmed lines : Forall trimmed (stripped_lines lines).
Proof.
  apply Forall_forall. intros x (line & _ & Hx)%list_elem_of_omap.
  case_bool_decide as Hne; [|done]. simplify_eq. by apply strip_trimmed.
Qed.

(** X8.  [load_directory_file] adds to the pool of the given type, after the
    names already there, the lines of the file stripped of surrounding
    whitespace, leaving out the blank ones, so that every name it adds is
    non-empty and neither begins nor ends with whitespace; it returns their
    number.  For a type other than PERSON, ORG and LOC it returns the number
    all the same and adds the names nowhere.  The other pools and the
    templates stay as they are; a file that cannot be read raises. *)
Theorem load_directory_file_pools self lines entity_type e :
  let names := stripped_lines lines in
  let added (ty : string) := if bool_decide (entity_type = lit ty) then names else [] in
  Forall trimmed names
  ∧ (∃ self', load_directory_file self (inr lines) entity_type
              = Return (len_list names, self')
        ∧ person_names self' = person_names self ++ added "PERSON"
        ∧ org_names self' = org_names self ++ added "ORG"
        ∧ location_names self' = location_names self ++ added "LOC"
        ∧ context_templates self' = context_templates self)
  ∧ load_directory_file self (inl e) entity_type
    = Raise (lit "Erreur lors du chargement de l'annuaire : " ++ e).
Proof.
  intros names added. split; [apply stripped_lines_trimmed|]. split; [|done].
  unfold load_directory_file. fold names. subst added. cbv beta.
  destruct (bool_decide (entity_type = lit "PERSON")) eqn:E1.
  { apply bool_decide_eq_true in E1 as ->. eexists. split; [done|].
    cbn [person_names org_names location_names context_templates set_pools].
    rewrite !bool_decide_eq_false_2 by done. by rewrite !app_nil_r. }
  destruct (bool_decide (entity_type = lit "ORG")) eqn:E2.
  { eexists. split; [done|].
    cbn [person_names org_names location_names context_templates set_pools].
    apply bool_decide_eq_true in E2 as ->.
    rewrite !bool_decide_eq_false_2 by done. by rewrite !app_nil_r. }
  destruct (bool_decide (entity_type = lit "LOC")) eqn:E3.
  { eexists. split; [done|].
    cbn [person_names org_names location_names context_templates set_pools].
    by rewrite !app_nil_r. }
  eexists. split; [done|]. by rewrite !app_nil_r.
Qed.

(** X9.  [load_context_templates] replaces the templates, whatever they
    were, by the lines of the file stripped of surrounding whitespace,
    leaving out the blank ones, and returns their number; the pools stay as
    they are; a file that cannot be read raises. *)
Theorem load_context_templates_replaces self lines e :
  let templates := stripped_lines lines in
  Forall trimmed templates
  ∧ (∃ self', load_context_templates self (inr lines) = Return (len_list templates, self')
        ∧ context_templates self' = templates
        ∧ person_names self' = person_names self
        ∧ org_names self' = org_names self
        ∧ location_names self' = location_names self)
  ∧ load_context_templates self (inl e)
    = Raise (lit "Erreur lors du chargement des contextes : " ++ e).
Proof.
  intros templates. split; [apply stripped_lines_trimmed|]. split; [|done].
  eexists. split; [reflexivity|done].
Qed.

End Loading.

Section Raising.
Implicit Types (token label : str) (names : list str) (g : rng) (es : list span).

(** The draw of a pass is guarded by its loop condition: a pass never
    raises. *)
Lemma substitute_kind_no_raise fuel token label names g t es msg :
  substitute_kind fuel token label names g t es ≠ Raise msg.
Proof.
  revert g t es. induction fuel as [|fuel IH]; intros g t es.
  - rewrite substitute_kind_0. by destruct (_ && _).
  - rewrite substitute_kind_S.
    destruct (str_in token t && bool_decide (names ≠ [])) eqn:Hc; [|done].
    apply andb_true_iff in Hc as [_ Hne]. apply bool_decide_eq_true in Hne.
    destruct (choice_nonempty names g Hne) as (value & -> & _).
    cbv zeta. destruct (bool_decide _); apply IH.
Qed.

Lemma fill_template_no_raise fuel self template g msg :
  fill_template fuel self template g ≠ Raise msg.
Proof.
  unfold fill_template.
  destruct (substitute_kind fuel (lit "{PERSON}") _ _ _ _ _) as [[[t1 e1] g1]| |] eqn:E1;
    [|by apply substitute_kind_no_raise in E1|done].
  rewrite bind_Return. cbv beta iota.
  destruct (substitute_kind fuel (lit "{ORG}") _ _ _ _ _) as [[[t2 e2] g2]| |] eqn:E2;
    [|by apply substitute_kind_no_raise in E2|done].
  rewrite bind_Return. cbv beta iota. apply substitute_kind_no_raise.
Qed.

Lemma samples_no_raise fuel self n g acc msg :
  context_templates self ≠ [] → samples fuel self n g acc ≠ Raise msg.
Proof.
  intros Hne. revert g acc. induction n as [|n IH]; intros g acc; [done|].
  cbn [samples]. unfold sample.
  destruct (choice_nonempty (context_templates self) g Hne) as (template & -> & _).
  destruct (fill_template fuel self template _) as [[[t es] g1]| |] eqn:Hf;
    [|by apply fill_template_no_raise in Hf|done].
  rewrite bind_Return. cbv beta iota.
  destruct (validate t es); rewrite bind_Return; cbv beta iota; apply IH.
Qed.

(** X10.  [generate_training_data] raises exactly when no template is
    loaded, whatever the count and the pools are (also for a count of zero,
    and also when all pools are empty); the exception is the one of its
    first line. *)
Theorem raises_only_without_templates fuel self n g msg :
  generate_training_data fuel self n g = Raise msg
  ↔ context_templates self = []
    ∧ msg = lit "Aucun template de contexte charg" ++ [ascii_of_nat 233].
Proof.
  unfold generate_training_data. case_bool_decide as Ht.
  - split; [intros ?; by simplify_eq|]. by intros [_ ->].
  - split; [|by intros [? _]].
    destruct (samples fuel self (Z.to_nat n) g []) as [[data g']| |] eqn:Hs; [done| |done].
    by apply samples_no_raise in Hs.
Qed.

End Raising.

Section PoolSpans.
Implicit Types (token label : str) (names : list str) (g : rng) (es : list span).

Lemma kind_pass_new_spans token label names t es t' es' :
  kind_pass token label names t es t' es' →
  ∃ new, es' = es ++ new
         ∧ Forall (λ sp, 0 ≤ sp.1.1 ∧ sp.2 = label
                         ∧ ∃ v, v ∈ names ∧ sp.1.2 = sp.1.1 + len v) new.
Proof.
  induction 1 as [|pre post value es t' es' _ Hv _ (new & -> & Hnew)].
  - exists []. by rewrite app_nil_r.
  - exists ((len pre, len pre + len value, label) :: new).
    rewrite <- (assoc_L (++)). split; [done|]. constructor; [|done].
    cbn. split; [unfold len; lia|]. split; [done|]. by exists value.
Qed.

Lemma fill_template_spans fuel self template g t es g' :
  fill_template fuel self template g = Return (t, es, g') →
  Forall (span_of_pool self) es.
Proof.
  intros (t1 & e1 & g1 & t2 & e2 & g2 & H1 & H2 & H3)%fill_template_inv.
  apply substitute_kind_pass, kind_pass_new_spans in H1 as (n1 & -> & F1).
  apply substitute_kind_pass, kind_pass_new_spans in H2 as (n2 & -> & F2).
  apply substitute_kind_pass, kind_pass_new_spans in H3 as (n3 & -> & F3).
  rewrite app_nil_l.
  repeat apply Forall_app_2;
    (eapply Forall_impl; [eassumption|]);
    intros [[a b] l] (Ha & Hl & v & Hv & Hb); cbn in Ha, Hl, Hb; subst l;
    (split; [done|]); exists v; (split; [|done]);
    unfold pool_of_label; cbn [snd];
    repeat (case_bool_decide as Hd; [first [discriminate Hd|exact Hv]|]); done.
Qed.

(** X11.  Every span of every example that [generate_training_data] returns
    starts at a non-negative index, carries one of the labels PERSON, ORG and
    LOC, and is as wide as some value of the pool of its label; if no pool
    holds the empty text, every span has its start before its end. *)
Theorem generated_spans_come_from_pools fuel self n g data self' g' :
  generate_training_data fuel self n g = Return (data, self', g') →
  Forall (λ ex, Forall (span_of_pool self) ex.2) data
  ∧ (Forall (λ v, v ≠ []) (person_names self ++ org_names self ++ location_names self) →
     Forall (λ ex, Forall (λ sp, sp.1.1 < sp.1.2) ex.2) data).
Proof.
  unfold generate_training_data. case_bool_decide as Ht; [intros H; discriminate H|].
  destruct (samples fuel self (Z.to_nat n) g []) as [[data0 g0]| |] eqn:Hs;
    try (intros H; discriminate H).
  rewrite bind_Return. cbv beta iota. intros ?; simplify_eq.
  apply samples_draws in Hs as (draws & _ & Hok & ->). rewrite app_nil_l.
  assert (Forall (λ ex, Forall (span_of_pool self) ex.2) (omap accepted draws)) as Hspans.
  { apply Forall_forall. intros ex (d & Hd & Hacc)%list_elem_of_omap.
    apply validate_spec in Hacc as (_ & _ & ->). cbn [snd].
    rewrite sort_by_start_perm.
    eapply Forall_forall in Hok as [_ (g0' & g1 & Hfill)]; [|exact Hd].
    by eapply fill_template_spans. }
  split; [done|]. intros Hpools.
  eapply Forall_impl; [exact Hspans|]. intros ex Hex.
  eapply Forall_impl; [exact Hex|]. intros [[a b] l] (Ha & v & Hv & ->). cbn in *.
  assert (v ≠ []) as Hne.
  { eapply Forall_forall in Hpools; [exact Hpools|].
    unfold pool_of_label in Hv. repeat case_bool_decide; set_solver. }
  destruct v; [done|]. unfold len. simpl. lia.
Qed.

End PoolSpans.

Section Segments.
Implicit Types (self : DataGenerator) (h : hole) (segs todo : list segment)
               (prefix s t : str) (es : list span).

Lemma render_app segs1 segs2 : render (segs1 ++ segs2) = render segs1 ++ render segs2.
Proof. induction segs1 as [|sg segs1 IH]; simpl; [done|]. by rewrite IH, (assoc_L (++)). Qed.

Lemma hole_token_brace h :
  ∃ c rest, hole_token h = "{"%char :: c :: rest ∧ "{"%char ∉ (c :: rest).
Proof.
  destruct h; eexists _, _; (split; [reflexivity|]);
    intros H%(bool_decide_pack _); by vm_compute in H.
Qed.

Lemma hole_token_second h1 h2 : hole_token h1 !! 1%nat = hole_token h2 !! 1%nat → h1 = h2.
Proof. destruct h1, h2; cbn; intros H; try discriminate H; reflexivity. Qed.

Lemma hole_rank_inj h1 h2 : hole_rank h1 = hole_rank h2 → h1 = h2.
Proof. by destruct h1, h2. Qed.

Lemma plain_app s1 s2 : plain (s1 ++ s2) ↔ plain s1 ∧ plain s2.
Proof. unfold plain. rewrite elem_of_app. tauto. Qed.

Lemma plain_no_token h s : plain s → str_in (hole_token h) s = false.
Proof.
  intros Hs. destruct (str_in (hole_token h) s) eqn:E; [|done].
  apply search_found in E as (pre & post & -> & _).
  destruct (hole_token_brace h) as (c & rest & Htok & _).
  exfalso. apply Hs. rewrite Htok, !elem_of_app. right. left. by left.
Qed.

Lemma occurs_at_drop (tok x y : str) i :
  occurs_at tok (x ++ y) i → (length x ≤ i)%nat → occurs_at tok y (i - length x).
Proof.
  intros (a & b & Heq & Ha) Hi. exists (drop (length x) a), b. split.
  - rewrite <- (drop_app_length x y), Heq. by rewrite drop_app_le by lia.
  - rewrite length_drop. lia.
Qed.

(** In a rendered template a placeholder token is found only where a
    segment is that placeholder. *)
Lemma occurrence_at_hole h segs i :
  well_formed segs →
  occurs_at (hole_token h) (render segs) i →
  ∃ before after, segs = before ++ Hole h :: after ∧ i = length (render before).
Proof.
  destruct (hole_token_brace h) as (c & rest & Htok & Hrest).
  revert i. induction segs as [|sg segs IH]; intros i Hwf Hocc.
  - destruct Hocc as (a & b & Heq & _). destruct a; simpl in Heq; [|done].
    by rewrite Htok in Heq.
  - assert (well_formed segs) as Hwf'.
    { intros s Hs. apply Hwf. by right. }
    assert ((length (render_segment sg) ≤ i)%nat →
            ∃ before after, sg :: segs = before ++ Hole h :: after
                            ∧ i = length (render before)) as Hlater.
    { intros Hi. apply occurs_at_drop in Hocc; [|done].
      destruct (IH _ Hwf' Hocc) as (before & after & -> & Hlen).
      exists (sg :: before), after. split; [done|]. simpl. rewrite length_app. lia. }
    destruct (decide (length (render_segment sg) ≤ i)%nat) as [Hi|Hi]; [by apply Hlater|].
    destruct Hocc as (a & b & Heq & Ha). subst i. simpl in Heq.
    pose proof (lookup_occurrence a (hole_token h) b 0) as L0.
    rewrite Nat.add_0_r, <- Heq in L0. rewrite Htok in L0. simpl in L0.
    specialize (L0 ltac:(lia)). rewrite lookup_app_l in L0 by lia.
    destruct sg as [s|h'].
    + exfalso. apply (Hwf s); [by left|]. by eapply list_elem_of_lookup_2.
    + simpl in *. destruct (hole_token_brace h') as (c' & rest' & Htok' & Hrest').
      destruct a as [|x a].
      * assert (h' = h) as ->; [|by exists [], segs].
        apply hole_token_second.
        pose proof (lookup_occurrence [] (hole_token h) b 1) as L1.
        rewrite <- Heq in L1. simpl in L1.
        rewrite lookup_app_l in L1 by (rewrite Htok'; simpl; lia).
        apply L1. rewrite Htok. simpl. lia.
      * exfalso. apply Hrest'. rewrite Htok' in L0. simpl in L0.
        by eapply list_elem_of_lookup_2.
Qed.

Lemma holes_from_ge r before h after :
  holes_from r (before ++ Hole h :: after) → (r ≤ hole_rank h)%nat.
Proof.
  revert r. induction before as [|[s|h'] before IH]; intros r; simpl.
  - by intros [? _].
  - apply IH.
  - intros [Hr H%IH]. lia.
Qed.

(** Before the first placeholder of the rank of the pass there is only
    text. *)
Lemma holes_from_first before h after :
  holes_from (hole_rank h) (before ++ Hole h :: after) →
  Hole h ∉ before →
  (∀ sg, sg ∈ before → ∃ s, sg = Text s) ∧ holes_from (hole_rank h) after.
Proof.
  induction before as [|[s|h'] before IH]; simpl.
  - intros [_ H] _. split; [|done]. intros sg Hsg. by apply elem_of_nil in Hsg.
  - intros H Hnot. destruct IH as [Htext Hafter]; [done|set_solver|].
    split; [|done]. intros sg [->|Hsg]%elem_of_cons; eauto.
  - intros [Hr Hrest] Hnot. exfalso. apply Hnot.
    assert (h' = h) as ->; [|by left].
    apply hole_rank_inj. apply holes_from_ge in Hrest. lia.
Qed.

Lemma holes_from_next h todo :
  holes_from (hole_rank h) todo → Hole h ∉ todo → holes_from (S (hole_rank h)) todo.
Proof.
  generalize (eq_refl (hole_rank h)). generalize (hole_rank h) at 1 3 4. intros r Hr.
  induction todo as [|[s|h'] todo IH]; simpl; [done| |].
  - intros H Hnot. apply IH; [done|set_solver].
  - intros [Hle Hrest] Hnot. split; [|done].
    destruct (decide (hole_rank h' = r)) as [Heq|Hne]; [|lia].
    exfalso. apply Hnot. assert (h' = h) as ->; [|by left].
    apply hole_rank_inj. lia.
Qed.

Lemma holes_from_none todo : holes_from 3 todo → count_holes todo = 0%nat.
Proof.
  induction todo as [|[s|h'] todo IH]; simpl; [done|done|].
  intros [Hr _]. destruct h'; simpl in Hr; lia.
Qed.

Lemma text_only_plain segs :
  well_formed segs → (∀ sg, sg ∈ segs → ∃ s, sg = Text s) →
  plain (render segs) ∧ count_holes segs = 0%nat.
Proof.
  induction segs as [|sg segs IH]; intros Hwf Htext; simpl.
  - split; [apply not_elem_of_nil|done].
  - destruct (Htext sg ltac:(by left)) as [s ->]. simpl.
    destruct IH as [Hp Hc].
    { intros s' Hs'. apply Hwf. by right. }
    { intros sg Hsg. apply Htext. by right. }
    split; [|done]. apply plain_app. split; [|done]. apply Hwf. by left.
Qed.

Lemma no_holes_plain segs :
  well_formed segs → count_holes segs = 0%nat → plain (render segs).
Proof.
  intros Hwf Hc. apply text_only_plain; [done|].
  induction segs as [|[s|h] segs IH]; intros sg Hsg; simpl in *.
  - by apply elem_of_nil in Hsg.
  - apply elem_of_cons in Hsg as [->|Hsg]; [eauto|].
    apply IH; [|done|done]. intros s' Hs'. apply Hwf. by right.
  - done.
Qed.

Lemma count_holes_app segs1 segs2 :
  count_holes (segs1 ++ segs2) = (count_holes segs1 + count_holes segs2)%nat.
Proof. induction segs1 as [|[s|h] segs1 IH]; simpl; lia. Qed.

Lemma spans_between_le self t lo hi es : spans_between self t lo hi es → lo ≤ hi.
Proof.
  revert lo. induction es as [|[[a b] l] es IH]; intros lo; simpl; [done|].
  intros (H1 & H2 & _ & H%IH). lia.
Qed.

Lemma slice_app_l (t x : str) (a b : Z) :
  0 ≤ a → a ≤ b → b ≤ len t → slice (t ++ x) a b = slice t a b.
Proof.
  intros Ha Hab Hb. unfold len in *.
  rewrite !slice_in_range by (unfold len; rewrite ?length_app; lia).
  rewrite drop_app_le by lia. rewrite take_app_le; [done|]. rewrite length_drop. lia.
Qed.

Lemma spans_between_extend self t x lo hi es :
  0 ≤ lo → hi ≤ len t →
  spans_between self t lo hi es → spans_between self (t ++ x) lo hi es.
Proof.
  intros Hlo Hhi. revert lo Hlo. induction es as [|[[a b] l] es IH]; intros lo Hlo; simpl;
    [done|].
  intros (H1 & H2 & (h & Hl & Hv) & Hrest). pose proof (spans_between_le _ _ _ _ _ Hrest).
  split; [done|]. split; [done|]. split.
  - exists h. split; [done|]. rewrite slice_app_l by lia. done.
  - apply IH; [lia|done].
Qed.

Lemma spans_between_weaken self t lo hi hi' es :
  hi ≤ hi' → spans_between self t lo hi es → spans_between self t lo hi' es.
Proof.
  intros Hhi. revert lo. induction es as [|[[a b] l] es IH]; intros lo; simpl; [lia|].
  intros (H1 & H2 & H3 & Hrest). eauto.
Qed.

Lemma spans_between_snoc self t lo hi es a b h :
  spans_between self t lo hi es → hi ≤ a → a ≤ b →
  slice t a b ∈ hole_pool self h →
  spans_between self t lo b (es ++ [(a, b, hole_label h)]).
Proof.
  intros Hes Ha Hb Hv. revert lo Hes.
  induction es as [|[[a0 b0] l0] es IH]; intros lo; simpl.
  - intros Hlo. split; [lia|]. split; [done|]. split; [eauto|lia].
  - intros (H1 & H2 & H3 & Hrest). eauto.
Qed.

Lemma spans_between_sorted self t lo hi es :
  spans_between self t lo hi es →
  Sorted le_start es ∧ ∀ sp, head es = Some sp → lo ≤ span_start sp.
Proof.
  revert lo. induction es as [|[[a b] l] es IH]; intros lo; simpl.
  - intros _. split; [constructor|done].
  - intros (H1 & H2 & _ & [Hs Hh]%IH). split.
    + constructor; [done|]. destruct es as [|sp es]; constructor.
      unfold le_start. specialize (Hh sp eq_refl). cbn. lia.
    + intros sp ?; simplify_eq. done.
Qed.

Lemma sort_by_start_sorted_id es : Sorted le_start es → sort_by_start es = es.
Proof.
  induction 1 as [|x l Hs IH Hd]; [done|]. simpl. rewrite IH.
  destruct Hd as [|y l Hxy]; [done|]. simpl. unfold le_start in Hxy.
  destruct (span_start x <=? span_start y) eqn:E; [done|lia].
Qed.

End Segments.

Section OrderedTemplates.
Implicit Types (self : DataGenerator) (h : hole) (segs todo : list segment)
               (prefix s t : str) (es : list span).

Lemma slice_value (pre value : str) :
  slice (pre ++ value) (len pre) (len pre + len value) = value.
Proof.
  unfold len. rewrite slice_in_range by (unfold len; rewrite ?length_app; lia).
  rewrite Nat2Z.id, drop_app_length.
  replace (Z.to_nat (Z.of_nat (length pre) + Z.of_nat (length value) - Z.of_nat (length pre)))
    with (length value) by lia.
  apply firstn_all.
Qed.

(** One pass over a template whose placeholders come in the order of the
    passes: the placeholders of the pass are filled from left to right,
    behind everything that was filled before, so that the spans recorded so
    far stay where they are. *)
Lemma pass_on_segments self h t es t' es' :
  kind_pass (hole_token h) (hole_label h) (hole_pool self h) t es t' es' →
  Forall plain (hole_pool self h) →
  ∀ prefix todo,
    t = prefix ++ render todo →
    plain prefix → well_formed todo → holes_from (hole_rank h) todo →
    (Hole h ∈ todo → hole_pool self h ≠ []) →
    spans_between self prefix 0 (len prefix) es →
    ∃ prefix' todo',
      t' = prefix' ++ render todo' ∧ plain prefix' ∧ well_formed todo'
      ∧ holes_from (S (hole_rank h)) todo'
      ∧ (∀ sg, sg ∈ todo' → sg ∈ todo)
      ∧ spans_between self prefix' 0 (len prefix') es'
      ∧ (length es' + count_holes todo' = length es + count_holes todo)%nat.
Proof.
  intros Hpass Hpool.
  induction Hpass as [t es Hdone|pre post value es t' es' Hfirst Hv Hpass IH];
    intros prefix todo Ht Hp Hwf Hh Hne Hs.
  - exists prefix, todo. repeat split; try done.
    apply holes_from_next; [done|]. intros Hin.
    destruct Hdone as [Hno|Hempty]; [|by apply Hne].
    apply list_elem_of_split in Hin as (a & b & ->).
    rewrite (str_in_app (hole_token h) (prefix ++ render a) (render b)) in Hno; [done|].
    rewrite Ht, render_app. simpl. by rewrite <- !(assoc_L (++)).
  - assert (well_formed (Text prefix :: todo)) as Hwf'.
    { intros s [Heq|Hin]%elem_of_cons; [by simplify_eq|by apply Hwf]. }
    destruct (occurrence_at_hole h (Text prefix :: todo) (length pre) Hwf')
      as (before & after & Hsplit & Hlen).
    { exists pre, post. split; [|done]. simpl. by rewrite <- Ht. }
    destruct before as [|sg pre_t]; [done|]. simpl in Hsplit. simplify_eq.
    simpl in Hlen. rewrite render_app in Ht. simpl in Ht.
    rewrite (assoc_L (++) prefix) in Ht.
    apply app_inj_1 in Ht as [-> Ht]; [|by rewrite Hlen].
    apply app_inv_head in Ht as ->.
    assert (Hole h ∉ pre_t) as Hnot.
    { intros (a & b & ->)%list_elem_of_split.
      apply (Hfirst (length (prefix ++ render a))).
      - rewrite render_app, !length_app. simpl. rewrite !length_app.
        destruct (hole_token_brace h) as (c & rest & -> & _). simpl. lia.
      - exists (prefix ++ render a), (render b ++ hole_token h ++ render after).
        split; [|done]. rewrite render_app. simpl. by rewrite <- !(assoc_L (++)). }
    destruct (holes_from_first pre_t h after Hh Hnot) as [Htext Hafter].
    assert (well_formed pre_t) as Hwf_pre.
    { intros s Hs'. apply Hwf. set_solver. }
    destruct (text_only_plain pre_t Hwf_pre Htext) as [Hplain Hcount].
    assert (plain value) as Hvalue.
    { eapply Forall_forall in Hpool; eauto. }
    destruct (IH ((prefix ++ render pre_t) ++ value) after) as
      (prefix' & todo' & -> & Hp' & Hwf'' & Hh' & Hsub & Hs' & Hc').
    + by rewrite <- !(assoc_L (++)).
    + rewrite !plain_app. done.
    + intros s Hs'. apply Hwf. set_solver.
    + done.
    + intros Hin. apply Hne. set_solver.
    + replace (len ((prefix ++ render pre_t) ++ value))
        with (len (prefix ++ render pre_t) + len value)
        by (unfold len; rewrite !length_app; lia).
      apply spans_between_snoc with (hi := len prefix).
      * rewrite <- !(assoc_L (++)). by apply spans_between_extend.
      * unfold len. rewrite length_app. lia.
      * unfold len. lia.
      * by rewrite slice_value.
    + exists prefix', todo'. repeat split; try done.
      * intros sg Hsg. set_solver.
      * rewrite length_app in Hc'. simpl in Hc'.
        rewrite count_holes_app. simpl. lia.
Qed.

Lemma plain_pools self h :
  Forall plain (person_names self ++ org_names self ++ location_names self) →
  Forall plain (hole_pool self h).
Proof. intros [Hp [Ho Hl]%Forall_app]%Forall_app. by destruct h. Qed.

(** X12.  For a template whose only braces are those of its placeholders
    and whose placeholders come in the text in the order of the passes (every
    {PERSON} before every {ORG}, every {ORG} before every {LOC}), with pools
    whose values hold no opening brace and are not empty for the placeholders
    used, the three passes record one span for each placeholder, the spans
    come one after the other inside the final text, and the text of each span
    is a value of the pool of its label; the validation then keeps the
    example with the spans as they were recorded. *)
Theorem ordered_template_spans_are_exact fuel self segs g t es g' :
  well_formed segs →
  holes_from 0 segs →
  Forall plain (person_names self ++ org_names self ++ location_names self) →
  (∀ h, Hole h ∈ segs → hole_pool self h ≠ []) →
  fill_template fuel self (render segs) g = Return (t, es, g') →
  spans_between self t 0 (len t) es
  ∧ length es = count_holes segs
  ∧ validate t es = if bool_decide (es ≠ []) then Some (t, es) else None.
Proof.
  intros Hwf Hord Hpools Hne
    (t1 & e1 & g1 & t2 & e2 & g2 & H1 & H2 & H3)%fill_template_inv.
  apply substitute_kind_pass in H1, H2, H3.
  destruct (pass_on_segments self HPerson _ _ _ _ H1 (plain_pools self HPerson Hpools)
              [] segs) as (p1 & d1 & -> & Hp1 & Hw1 & Hh1 & Hsub1 & Hs1 & Hc1);
    [done|apply not_elem_of_nil|done|done|by apply Hne|done|].
  destruct (pass_on_segments self HOrg _ _ _ _ H2 (plain_pools self HOrg Hpools)
              p1 d1) as (p2 & d2 & -> & Hp2 & Hw2 & Hh2 & Hsub2 & Hs2 & Hc2);
    [done|done|done|done|intros Hin; by apply Hne, Hsub1|done|].
  destruct (pass_on_segments self HLoc _ _ _ _ H3 (plain_pools self HLoc Hpools)
              p2 d2) as (p3 & d3 & -> & Hp3 & Hw3 & Hh3 & Hsub3 & Hs3 & Hc3);
    [done|done|done|done|intros Hin; by apply Hne, Hsub1, Hsub2|done|].
  cbn [hole_rank] in *. pose proof (holes_from_none d3 Hh3) as Hnone.
  assert (spans_between self (p3 ++ render d3) 0 (len (p3 ++ render d3)) es) as Hspans.
  { apply spans_between_weaken with (hi := len p3).
    - unfold len. rewrite length_app. lia.
    - by apply spans_between_extend. }
  split; [done|]. split; [simpl in *; lia|].
  unfold validate.
  assert (plain (p3 ++ render d3)) as Hplain.
  { apply plain_app. split; [done|]. by apply no_holes_plain. }
  assert (existsb (λ placeholder, str_in placeholder (p3 ++ render d3)) placeholders = false)
    as ->.
  { pose proof (plain_no_token HPerson _ Hplain) as N1.
    pose proof (plain_no_token HOrg _ Hplain) as N2.
    pose proof (plain_no_token HLoc _ Hplain) as N3.
    cbn [hole_token] in N1, N2, N3.
    unfold placeholders. cbn [existsb]. by rewrite N1, N2, N3. }
  cbn [negb]. rewrite sort_by_start_sorted_id; [done|].
  by eapply spans_between_sorted.
Qed.

End OrderedTemplates.

Section OutOfOrder.
Implicit Types (self : DataGenerator) (h : hole) (segs : list segment) (es : list span).

(** What a pass does to a rendered template: nothing, when the template has
    no placeholder of the pass or the pool is empty; and else it fills the
    first placeholder of the pass with a value of the pool, records the span
    of the value where it stands at that moment, and goes on. *)
Lemma kind_pass_segments self h segs es t' es' :
  well_formed segs →
  kind_pass (hole_token h) (hole_label h) (hole_pool self h) (render segs) es t' es' →
  ((Hole h ∉ segs ∨ hole_pool self h = []) ∧ t' = render segs ∧ es' = es)
  ∨ ∃ before after v,
      (segs = before ++ Hole h :: after) ∧ (Hole h ∉ before) ∧ (v ∈ hole_pool self h)
      ∧ kind_pass (hole_token h) (hole_label h) (hole_pool self h)
          (render (before ++ Text v :: after))
          (es ++ [(len (render before), len (render before) + len v, hole_label h)])
          t' es'.
Proof.
  intros Hwf Hpass. inversion Hpass as [t0 es0 Hdone|pre post value es0 t0 es0' Hfirst Hv Hnext Ht];
    subst.
  - left. split; [|done]. destruct Hdone as [Hno|Hempty]; [left|by right].
    intros (a & b & ->)%list_elem_of_split.
    rewrite (str_in_app (hole_token h) (render a) (render b)) in Hno; [done|].
    by rewrite render_app.
  - right.
    destruct (occurrence_at_hole h segs (length pre) Hwf) as (before & after & -> & Hlen).
    { exists pre, post. by rewrite Ht. }
    rewrite render_app in Ht. simpl in Ht.
    apply app_inj_1 in Ht as [-> Ht]; [|done]. apply app_inv_head in Ht as ->.
    exists before, after, value. split; [done|]. split; [|split; [done|]].
    + intros (a & b & ->)%list_elem_of_split.
      apply (Hfirst (length (render a))).
      * rewrite render_app, !length_app. simpl. rewrite !length_app.
        destruct (hole_token_brace h) as (c & rest & -> & _). simpl. lia.
      * exists (render a), (render b ++ hole_token h ++ render after).
        split; [|done]. rewrite render_app. simpl. by rewrite <- !(assoc_L (++)).
    + rewrite render_app. simpl. done.
Qed.

(** X13.  A template in which {LOC} stands before {PERSON}: the span of the
    person is recorded during the first pass, while {LOC} is still in the
    text, and is not moved when the location is filled in.  It starts at
    len(a) + len("{LOC}") + len(b), whereas in the final text the name starts
    at len(a) + len(location) + len(b). *)
Theorem placeholder_out_of_order fuel self (a b c : str) g t es g' :
  plain a → plain b → plain c →
  Forall plain (person_names self ++ org_names self ++ location_names self) →
  person_names self ≠ [] → location_names self ≠ [] →
  fill_template fuel self (a ++ lit "{LOC}" ++ b ++ lit "{PERSON}" ++ c) g
    = Return (t, es, g') →
  ∃ p l, p ∈ person_names self ∧ l ∈ location_names self
    ∧ t = a ++ l ++ b ++ p ++ c
    ∧ es = [(len a + 5 + len b, len a + 5 + len b + len p, lit "PERSON");
            (len a, len a + len l, lit "LOC")].
Proof.
  intros Ha Hb Hc Hpools Hpers Hlocs
    (t1 & e1 & g1 & t2 & e2 & g2 & H1 & H2 & H3)%fill_template_inv.
  apply substitute_kind_pass in H1, H2, H3.
  pose proof (plain_pools self HPerson Hpools) as Hpp.
  pose proof (plain_pools self HLoc Hpools) as Hpl.
  set (segs0 := [Text a; Hole HLoc; Text b; Hole HPerson; Text c]).
  assert (well_formed segs0) as Hwf0.
  { intros s Hs. subst segs0. set_solver. }
  replace (a ++ lit "{LOC}" ++ b ++ lit "{PERSON}" ++ c)
    with (render segs0) in H1 by (simpl; by rewrite app_nil_r).
  apply (kind_pass_segments self HPerson segs0) in H1 as
    [([Hno|Hempty] & _ & _)|(before & after & p & Hsplit & Hnot & Hp & H1)];
    [exfalso; apply Hno; subst segs0; set_solver|done| |done].
  assert (before = [Text a; Hole HLoc; Text b] ∧ after = [Text c]) as [-> ->].
  { subst segs0.
    do 4 (destruct before as [|? before]; simplify_eq; try set_solver). }
  cbn [app] in H1.
  assert (plain p) as Hplain_p by (eapply Forall_forall in Hpp; eauto).
  apply (kind_pass_segments self HPerson) in H1 as
    [(_ & -> & ->)|(before & after & p' & Hsplit' & _)].
  2:{ exfalso. do 6 (destruct before as [|? before]; simplify_eq). }
  2:{ intros s Hs. set_solver. }
  apply (kind_pass_segments self HOrg) in H2 as
    [(_ & -> & ->)|(before & after & o & Hsplit' & _)].
  2:{ exfalso. do 6 (destruct before as [|? before]; simplify_eq). }
  2:{ intros s Hs. set_solver. }
  apply (kind_pass_segments self HLoc) in H3 as
    [([Hno|Hempty] & _ & _)|(before & after & l & Hsplit' & Hnot' & Hl & H3)];
    [exfalso; apply Hno; set_solver|done| |intros s Hs; set_solver].
  assert (before = [Text a] ∧ after = [Text b; Text p; Text c]) as [-> ->].
  { do 2 (destruct before as [|? before]; simplify_eq; try set_solver). }
  cbn [app] in H3.
  assert (plain l) as Hplain_l by (eapply Forall_forall in Hpl; eauto).
  apply (kind_pass_segments self HLoc) in H3 as
    [(_ & -> & ->)|(before & after & l' & Hsplit'' & _)].
  2:{ exfalso. do 6 (destruct before as [|? before]; simplify_eq). }
  2:{ intros s Hs. set_solver. }
  exists p, l. split; [done|]. split; [done|]. split.
  - simpl. by rewrite app_nil_r.
  - cbn [app render render_segment hole_token hole_label]. unfold len.
    rewrite ?length_app. cbn [length lit list_ascii_of_string].
    rewrite !Nat.add_0_r, !Nat2Z.inj_add. repeat (f_equal; try lia).
Qed.

End OutOfOrder.

(** * Further properties of the file processing *)

Section Grouping.
Implicit Types (entities : list EntityRecord) (entity_type : str).

Lemma entites_par_type_snoc entities entity :
  entites_par_type (entities ++ [entity]) = group_step (entites_par_type entities) entity.
Proof. unfold entites_par_type. by rewrite fold_left_app. Qed.

Lemma entries_of_type_snoc entity_type entities entity :
  entries_of_type entity_type (entities ++ [entity])
  = entries_of_type entity_type entities
    ++ (if bool_decide (type_ entity = entity_type) then [group_entry entity] else []).
Proof.
  unfold entries_of_type. rewrite filter_app, fmap_app. f_equal.
  rewrite filter_cons, filter_nil. case_decide; by case_bool_decide.
Qed.

(** X14.  The grouping loop of [process_file] loses and invents nothing:
    under each type stand the entities of that type, in the order in which
    they were rewritten, and a type without entity has no key. *)
Theorem grouping_by_type entities entity_type :
  entites_par_type entities !! entity_type
  = match entries_of_type entity_type entities with
    | [] => None
    | entries => Some entries
    end.
Proof.
  induction entities as [|entity entities IH] using rev_ind; [done|].
  rewrite entites_par_type_snoc, entries_of_type_snoc. unfold group_step. cbv zeta.
  set (m := entites_par_type entities) in *.
  destruct (decide (type_ entity = entity_type)) as [<-|Hty].
  - rewrite (bool_decide_eq_true_2 (type_ entity = type_ entity)) by done.
    rewrite lookup_insert_eq.
    case_bool_decide as Hnew.
    + rewrite lookup_insert_eq. rewrite Hnew in IH.
      destruct (entries_of_type (type_ entity) entities); [done|discriminate IH].
    + destruct (m !! type_ entity) as [old|] eqn:Hold; [|done].
      destruct (entries_of_type (type_ entity) entities); [discriminate IH|].
      by simplify_eq.
  - rewrite (bool_decide_eq_false_2 (type_ entity = entity_type)) by done.
    rewrite lookup_insert_ne by done. rewrite app_nil_r.
    case_bool_decide; [by rewrite lookup_insert_ne|done].
Qed.

End Grouping.

Section FurtherSamples.

(** X3 on the scenario: the one key that holds the first pseudonym *)
Lemma correspondence_table_injective_witness :
  let table := result_correspondences
                 (pseudonymize (TextPseudonymizer_init (λ _, scenario_ents))
                    scenario_text None).1 in
  table !! registry_key (lit "PERSONNE") (lit "Jean Dupont") = Some (kind_pseudonym Person 1)
  ∧ registry_key (lit "PERSONNE") (lit "Jean Dupont")
    = registry_key (lit "PERSONNE") (lit "Jean Dupont").
Proof.
  intros table. split; [by vm_compute|].
  apply (correspondence_table_injective (λ _, scenario_ents) scenario_text None
           (registry_key (lit "PERSONNE") (lit "Jean Dupont"))
           (registry_key (lit "PERSONNE") (lit "Jean Dupont"))
           (kind_pseudonym Person 1));
    by vm_compute.
Defined.

(** X4 on two calls for persons: the numbers 1 and 2 are taken *)
Lemma counters_number_without_gaps_witness :
  let calls := [person_call "Jean Dupont" false; person_call "Marie Curie" false] in
  let self' := (resolve_all (TextPseudonymizer_init (λ _, [])) calls).2 in
  1 ≤ 2 < kind_counter Person self'
  ↔ ∃ l, correspondences self' !! (kind_name Person ++ lit "_" ++ l)
         = Some (kind_pseudonym Person 2).
Proof.
  intros calls.
  apply (counters_number_without_gaps (λ _, []) calls Person 2).
  repeat (constructor; [split; [reflexivity|by exists Person]|]). constructor.
Defined.

(** X5 on the scenario, with another fill character and length option *)
Lemma fallback_options_unused_witness :
  let self := TextPseudonymizer_init (λ _, scenario_ents) in
  let c2 := {| mask_persons := true; mask_orgs := true; mask_locations := true;
               mask_dates := true; mask_emails := true; mask_phones := true;
               replacement_char := lit "*"; preserve_length := false;
               use_placeholders := use_placeholders default_config |} in
  pseudonymize self scenario_text (Some default_config)
  = pseudonymize self scenario_text (Some c2).
Proof.
  intros self c2.
  apply (fallback_options_unused self scenario_text default_config c2).
  repeat split; reflexivity.
Defined.

(** X6 on a text without entity, address or number *)
Lemma nothing_to_mask_witness :
  let self := TextPseudonymizer_init (λ _, []) in
  pseudonymize self (lit "Bonjour.") None
  = ({| original_text := lit "Bonjour."; pseudonymized_text := lit "Bonjour.";
        entities := []; result_correspondences := correspondences self |}, self).
Proof.
  intros self.
  apply (nothing_to_mask self (lit "Bonjour.") None); by vm_compute.
Defined.

(** X7 on the scenario of the specification *)
Lemma text_between_spans_unchanged_witness :
  let self := TextPseudonymizer_init (λ _, scenario_ents) in
  let st := rewrite_ents default_config self scenario_text scenario_ents in
  rw_text st
  = spliced scenario_text 0 (masked self default_config scenario_ents)
      (replacement <$> rw_entities st).
Proof.
  intros self.
  apply (text_between_spans_unchanged self default_config scenario_text scenario_ents).
  by vm_compute.
Defined.

(** X11 on one sample of the coverage example *)
Lemma generated_spans_come_from_pools_witness :
  let data := [(lit "Jean Dupont travaille chez Microsoft depuis janvier.",
                [(0, 11, lit "PERSON"); (27, 36, lit "ORG")])] in
  Forall (λ ex, Forall (span_of_pool coverage_generator) ex.2) data
  ∧ (Forall (λ v, v ≠ [])
       (person_names coverage_generator ++ org_names coverage_generator
        ++ location_names coverage_generator) →
     Forall (λ ex, Forall (λ sp, sp.1.1 < sp.1.2) ex.2) data).
Proof.
  intros data.
  apply (generated_spans_come_from_pools 2 coverage_generator 1 (λ _, O) data
           (set_generated_data coverage_generator data) (λ _, O)).
  vm_compute. reflexivity.
Defined.

(** X12 on the template of the coverage example *)
Lemma ordered_template_spans_are_exact_witness :
  let t := lit "Jean Dupont travaille chez Microsoft depuis janvier." in
  let es := [(0, 11, lit "PERSON"); (27, 36, lit "ORG")] in
  spans_between coverage_generator t 0 (len t) es
  ∧ length es = count_holes coverage_segments
  ∧ validate t es = if bool_decide (es ≠ []) then Some (t, es) else None.
Proof.
  intros t es.
  apply (ordered_template_spans_are_exact 2 coverage_generator coverage_segments
           (λ _, O) t es (λ _, O)).
  - intros s Hs. unfold coverage_segments in Hs.
    repeat (apply elem_of_cons in Hs as [Hs|Hs];
            [try discriminate Hs; injection Hs as ->; apply (bool_decide_unpack _);
             by vm_compute|]).
    by apply elem_of_nil in Hs.
  - simpl. lia.
  - repeat constructor; apply (bool_decide_unpack _); by vm_compute.
  - intros [] Hh; [discriminate|discriminate|]. unfold coverage_segments in Hh.
    repeat (apply elem_of_cons in Hh as [Hh|Hh]; [discriminate Hh|]).
    by apply elem_of_nil in Hh.
  - vm_compute. reflexivity.
Defined.

(** X13 on a template with the location before the person *)
Lemma placeholder_out_of_order_witness :
  ∃ p l, p ∈ person_names directory_generator ∧ l ∈ location_names directory_generator
    ∧ lit "De Marseille, Jean Dupont appelle."
      = lit "De " ++ l ++ lit ", " ++ p ++ lit " appelle."
    ∧ [(10, 21, lit "PERSON"); (3, 12, lit "LOC")]
      = [(len (lit "De ") + 5 + len (lit ", "),
          len (lit "De ") + 5 + len (lit ", ") + len p, lit "PERSON");
         (len (lit "De "), len (lit "De ") + len l, lit "LOC")].
Proof.
  apply (placeholder_out_of_order 2 directory_generator
           (lit "De ") (lit ", ") (lit " appelle.") (λ _, O)
           (lit "De Marseille, Jean Dupont appelle.")
           [(10, 21, lit "PERSON"); (3, 12, lit "LOC")] (λ _, O)).
  - apply (bool_decide_unpack _). by vm_compute.
  - apply (bool_decide_unpack _). by vm_compute.
  - apply (bool_decide_unpack _). by vm_compute.
  - repeat constructor; apply (bool_decide_unpack _); by vm_compute.
  - discriminate.
  - discriminate.
  - vm_compute. reflexivity.
Defined.

End FurtherSamples.
